(** * AgentBill SDK: span tracer, batch exporter and provider wrappers

    A shallow embedding of [tracer.ts] (class [AgentBillTracer]) and
    [wrapper.ts] (class [AgentBillWrapper]).  The tracer's fields and the
    parts of the JavaScript host it talks to (wall clock, random source,
    timers, [fetch], console) are one explicit state record that every
    method threads through. *)

From Stdlib Require Import ZArith Lia DecimalString.
From stdpp Require Import base option list strings gmap.

Local Open Scope string_scope.
Local Open Scope list_scope.
Local Open Scope Z_scope.

(** ** JavaScript values reaching the tracer *)

(** The values passed as [value: any] to [setSpanAttribute].  Numbers are
    split the way [Number.isInteger] splits them: [JInt] for integral
    numbers, [JFrac] for the other truthy numbers (non-integral or
    infinite), carried by their decimal text, and [JNaN].  [JObject]
    stands for any value whose [typeof] is neither string, number nor
    boolean and that is not nullish; it carries the text [String(value)]
    produces. *)
Inductive JsValue : Type :=
| JUndefined
| JNull
| JBool (b : bool)
| JInt (n : Z)
| JFrac (text : string)
| JNaN
| JString (s : string)
| JObject (text : string).

(** JavaScript truthiness, as used by [||] and [if (...)]. *)
Definition truthy (v : JsValue) : bool :=
  match v with
  | JUndefined | JNull | JNaN => false
  | JBool b => b
  | JInt n => negb (n =? 0)
  | JFrac _ => true
  | JString s => negb (String.eqb s EmptyString)
  | JObject _ => true
  end.

(** [a || b]. *)
Definition js_or (a b : JsValue) : JsValue := if truthy a then a else b.

(** [String(value)] on the values of [JsValue], whose objects carry the
    text of their conversion (a value on which the conversion throws is
    not among them).  An integral number prints as its decimal digits,
    as numbers below 10^21 in magnitude do. *)
Definition js_String (v : JsValue) : string :=
  match v with
  | JUndefined => "undefined"
  | JNull => "null"
  | JObject text => text
  | JString s => s
  | JBool true => "true"
  | JBool false => "false"
  | JFrac text => text
  | JNaN => "NaN"
  | JInt n => NilZero.string_of_int (Z.to_int n)
  end.

(** [v !== undefined]. *)
Definition is_defined (v : JsValue) : bool :=
  match v with JUndefined => false | _ => true end.

(** A string-typed optional field used with [||]: absent and the empty
    string are both falsy. *)
Definition truthy_str (o : option string) : option string :=
  match o with
  | Some s => if String.eqb s EmptyString then None else Some s
  | None => None
  end.

(** ** types.ts *)

Record AgentBillConfig : Type := {
  apiKey : string;
  baseUrl : option string;
  customerId : option string;
  debug : bool
}.

Record TraceContext : Type := {
  tc_traceId : string;
  tc_spanId : string;
  tc_customerId : option string
}.

(** The encoded attribute value: one of the four OTLP tags. *)
Inductive AnyValue : Type :=
| stringValue (s : string)
| intValue (n : Z)
| doubleValue (text : string)
| boolValue (b : bool).

Inductive SpanKind : Type := client | server | internal.

(** [SpanData].  The two time fields hold the product [ms * 1000000]
    whose decimal text the source stores (the rounding of that product
    to a double is left out); [endTimeUnixNano = None] is the source's
    ['']. [events] is always the empty array in this code. *)
Record SpanData : Type := {
  traceId : string;
  spanId : string;
  parentSpanId : option string;
  name : string;
  kind : SpanKind;
  startTimeUnixNano : Z;
  endTimeUnixNano : option Z;
  attributes : list (string * AnyValue);
  status : option (Z * option string);
  events : list unit
}.

Record OtelExportPayload : Type := {
  resource_attributes : list (string * AnyValue);
  scope_name : string;
  scope_version : string;
  spans : list SpanData
}.

(** ** The host: console, network *)

Inductive ConsoleLine : Type :=
| console_log (message : string)
| console_error (message : string) (detail : string).

(** One [fetch] call as issued by [exportSpans]. *)
Record Request : Type := {
  url : string;
  x_api_key : string;
  body : OtelExportPayload
}.

(** How an issued [fetch] settles. *)
Inductive FetchOutcome : Type :=
| fetch_rejects (error : string)
| response_not_ok (text : option string)
| response_ok (json : option string).

(** ** tracer.ts: state *)

(** The fields of [AgentBillTracer] followed by the host state its
    methods read and write.  [timers] are the armed timeouts, each with
    its handle and the clock reading at which it is due; every callback
    ever registered is [() => this.exportSpans()].  [rng] is the tape
    [crypto.getRandomValues] reads from, [rng_pos] the next unread
    cell. *)
Record Tracer : Type := {
  config : AgentBillConfig;
  activeSpans : gmap string SpanData;
  pendingExports : list SpanData;
  exportTimer : option nat;
  now : Z;
  rng : nat → N;
  rng_pos : nat;
  timers : list (nat * Z);
  next_timer : nat;
  requests : list Request;
  inflight : nat;
  console : list ConsoleLine
}.

Definition set_activeSpans (f : gmap string SpanData → gmap string SpanData)
    (t : Tracer) : Tracer :=
  {| config := config t; activeSpans := f (activeSpans t);
     pendingExports := pendingExports t; exportTimer := exportTimer t;
     now := now t; rng := rng t; rng_pos := rng_pos t; timers := timers t;
     next_timer := next_timer t; requests := requests t;
     inflight := inflight t; console := console t |}.

Definition set_pendingExports (f : list SpanData → list SpanData)
    (t : Tracer) : Tracer :=
  {| config := config t; activeSpans := activeSpans t;
     pendingExports := f (pendingExports t); exportTimer := exportTimer t;
     now := now t; rng := rng t; rng_pos := rng_pos t; timers := timers t;
     next_timer := next_timer t; requests := requests t;
     inflight := inflight t; console := console t |}.

Definition set_exportTimer (h : option nat) (t : Tracer) : Tracer :=
  {| config := config t; activeSpans := activeSpans t;
     pendingExports := pendingExports t; exportTimer := h;
     now := now t; rng := rng t; rng_pos := rng_pos t; timers := timers t;
     next_timer := next_timer t; requests := requests t;
     inflight := inflight t; console := console t |}.

Definition set_now (f : Z → Z) (t : Tracer) : Tracer :=
  {| config := config t; activeSpans := activeSpans t;
     pendingExports := pendingExports t; exportTimer := exportTimer t;
     now := f (now t); rng := rng t; rng_pos := rng_pos t; timers := timers t;
     next_timer := next_timer t; requests := requests t;
     inflight := inflight t; console := console t |}.

Definition set_rng_pos (f : nat → nat) (t : Tracer) : Tracer :=
  {| config := config t; activeSpans := activeSpans t;
     pendingExports := pendingExports t; exportTimer := exportTimer t;
     now := now t; rng := rng t; rng_pos := f (rng_pos t); timers := timers t;
     next_timer := next_timer t; requests := requests t;
     inflight := inflight t; console := console t |}.

Definition set_timers (f : list (nat * Z) → list (nat * Z))
    (t : Tracer) : Tracer :=
  {| config := config t; activeSpans := activeSpans t;
     pendingExports := pendingExports t; exportTimer := exportTimer t;
     now := now t; rng := rng t; rng_pos := rng_pos t; timers := f (timers t);
     next_timer := next_timer t; requests := requests t;
     inflight := inflight t; console := console t |}.

Definition set_next_timer (f : nat → nat) (t : Tracer) : Tracer :=
  {| config := config t; activeSpans := activeSpans t;
     pendingExports := pendingExports t; exportTimer := exportTimer t;
     now := now t; rng := rng t; rng_pos := rng_pos t; timers := timers t;
     next_timer := f (next_timer t); requests := requests t;
     inflight := inflight t; console := console t |}.

Definition set_requests (f : list Request → list Request)
    (t : Tracer) : Tracer :=
  {| config := config t; activeSpans := activeSpans t;
     pendingExports := pendingExports t; exportTimer := exportTimer t;
     now := now t; rng := rng t; rng_pos := rng_pos t; timers := timers t;
     next_timer := next_timer t; requests := f (requests t);
     inflight := inflight t; console := console t |}.

Definition set_inflight (f : nat → nat) (t : Tracer) : Tracer :=
  {| config := config t; activeSpans := activeSpans t;
     pendingExports := pendingExports t; exportTimer := exportTimer t;
     now := now t; rng := rng t; rng_pos := rng_pos t; timers := timers t;
     next_timer := next_timer t; requests := requests t;
     inflight := f (inflight t); console := console t |}.

Definition set_console (f : list ConsoleLine → list ConsoleLine)
    (t : Tracer) : Tracer :=
  {| config := config t; activeSpans := activeSpans t;
     pendingExports := pendingExports t; exportTimer := exportTimer t;
     now := now t; rng := rng t; rng_pos := rng_pos t; timers := timers t;
     next_timer := next_timer t; requests := requests t;
     inflight := inflight t; console := f (console t) |}.

(** [log(message, data)]: prints only under [config.debug]. *)
Definition log (message : string) (t : Tracer) : Tracer :=
  set_console
    (λ c, if debug (config t)
          then c ++ [console_log ("[AgentBill] " +:+ message)]
          else c) t.

(** [new AgentBillTracer(config)] on a host whose clock reads [clock] and
    whose random tape is [tape]. *)
Definition new_Tracer (cfg : AgentBillConfig) (clock : Z) (tape : nat → N)
    : Tracer :=
  log "Tracer initialized"
    {| config := cfg; activeSpans := ∅; pendingExports := [];
       exportTimer := None; now := clock; rng := tape; rng_pos := 0%nat;
       timers := []; next_timer := 1%nat; requests := [];
       inflight := 0%nat; console := [] |}.

(** ** tracer.ts: methods *)

Definition hex_digit (d : N) : string :=
  match d with
  | 0%N => "0" | 1%N => "1" | 2%N => "2" | 3%N => "3"
  | 4%N => "4" | 5%N => "5" | 6%N => "6" | 7%N => "7"
  | 8%N => "8" | 9%N => "9" | 10%N => "a" | 11%N => "b"
  | 12%N => "c" | 13%N => "d" | 14%N => "e" | _ => "f"
  end.

(** [b.toString(16).padStart(2, '0')] for a byte [b]. *)
Definition hex_byte (b : N) : string :=
  hex_digit (b `div` 16)%N +:+ hex_digit (b `mod` 16)%N.

(** [crypto.getRandomValues(new Uint8Array(n))]: the next [n] cells of the
    tape, each reduced to a byte. *)
Definition getRandomValues (n : nat) (t : Tracer) : list N * Tracer :=
  (map (λ i, (rng t (rng_pos t + i)%nat `mod` 256)%N) (seq 0 n),
   set_rng_pos (λ p, (p + n)%nat) t).

Definition generateId (length : nat) (t : Tracer) : string * Tracer :=
  let '(bytes, t1) := getRandomValues (length / 2)%nat t in
  (String.concat EmptyString (map hex_byte bytes), t1).

Definition generateTraceId : Tracer → string * Tracer := generateId 32.
Definition generateSpanId : Tracer → string * Tracer := generateId 16.

Definition startSpan (name_ : string) (traceContext : option TraceContext)
    (t : Tracer) : TraceContext * Tracer :=
  let '(traceId_, t1) :=
    match truthy_str (tc_traceId <$> traceContext) with
    | Some tid => (tid, t)
    | None => generateTraceId t
    end in
  let '(spanId_, t2) := generateSpanId t1 in
  let startTime := now t2 in
  let span := {| traceId := traceId_; spanId := spanId_;
                 parentSpanId := tc_spanId <$> traceContext;
                 name := name_; kind := client;
                 startTimeUnixNano := startTime * 1000000;
                 endTimeUnixNano := None;
                 attributes := []; status := None; events := [] |} in
  let t3 := set_activeSpans (λ m, <[spanId_ := span]> m) t2 in
  let t4 := log "Span started" t3 in
  ({| tc_traceId := traceId_; tc_spanId := spanId_;
      tc_customerId :=
        match truthy_str (traceContext ≫= tc_customerId) with
        | Some c => Some c
        | None => customerId (config t4)
        end |}, t4).

(** On the values of [JsValue]; the fallback [String(value)] is as in
    [js_String]. *)
Definition encodeValue (value : JsValue) : AnyValue :=
  match value with
  | JString s => stringValue s
  | JInt n => intValue n
  | JFrac text => doubleValue text
  | JNaN => doubleValue "NaN"
  | JBool b => boolValue b
  | other => stringValue (js_String other)
  end.

Definition push_attribute (key : string) (value : AnyValue) (s : SpanData)
    : SpanData :=
  {| traceId := traceId s; spanId := spanId s; parentSpanId := parentSpanId s;
     name := name s; kind := kind s;
     startTimeUnixNano := startTimeUnixNano s;
     endTimeUnixNano := endTimeUnixNano s;
     attributes := attributes s ++ [(key, value)];
     status := status s; events := events s |}.

Definition with_status (code : Z) (message : option string) (s : SpanData)
    : SpanData :=
  {| traceId := traceId s; spanId := spanId s; parentSpanId := parentSpanId s;
     name := name s; kind := kind s;
     startTimeUnixNano := startTimeUnixNano s;
     endTimeUnixNano := endTimeUnixNano s;
     attributes := attributes s;
     status := Some (code, message); events := events s |}.

Definition with_endTime (nanos : Z) (s : SpanData) : SpanData :=
  {| traceId := traceId s; spanId := spanId s; parentSpanId := parentSpanId s;
     name := name s; kind := kind s;
     startTimeUnixNano := startTimeUnixNano s;
     endTimeUnixNano := Some nanos;
     attributes := attributes s;
     status := status s; events := events s |}.

Definition setSpanAttribute (spanId_ key : string) (value : JsValue)
    (t : Tracer) : Tracer :=
  match activeSpans t !! spanId_ with
  | Some span =>
      set_activeSpans
        (λ m, <[spanId_ := push_attribute key (encodeValue value) span]> m) t
  | None => t
  end.

Definition setSpanStatus (spanId_ : string) (code : Z)
    (message : option string) (t : Tracer) : Tracer :=
  match activeSpans t !! spanId_ with
  | Some span =>
      set_activeSpans (λ m, <[spanId_ := with_status code message span]> m) t
  | None => t
  end.

(** [clearTimeout(handle)]: disarms the timeout with that handle, if it is
    still armed. *)
Definition clearTimeout (handle : nat) (t : Tracer) : Tracer :=
  set_timers (filter (λ e, e.1 ≠ handle)) t.

(** [setTimeout(() => this.exportSpans(), delay)]: arms a timeout due
    [delay] ms from now and returns its fresh handle. *)
Definition setTimeout (delay : Z) (t : Tracer) : nat * Tracer :=
  let h := next_timer t in
  (h, set_next_timer S (set_timers (λ l, l ++ [(h, now t + delay)]) t)).

Definition export_payload (cfg : AgentBillConfig) (batch : list SpanData)
    : OtelExportPayload :=
  {| resource_attributes :=
       [("service.name", stringValue "agentbill-sdk");
        ("service.version", stringValue "1.0.0")]
       ++ match truthy_str (customerId cfg) with
          | Some c => [("customer.id", stringValue c)]
          | None => []
          end;
     scope_name := "agentbill-instrumentation";
     scope_version := "1.0.0";
     spans := batch |}.

Definition export_request (cfg : AgentBillConfig) (batch : list SpanData)
    : Request :=
  {| url := default "https://uenhjwdtnxtchlmqarjo.supabase.co"
                    (truthy_str (baseUrl cfg))
            +:+ "/functions/v1/otel-collector";
     x_api_key := apiKey cfg;
     body := export_payload cfg batch |}.

(** [exportSpans()] up to its first [await]: everything the call does
    before it returns its promise to the caller. *)
Definition exportSpans (t : Tracer) : Tracer :=
  match pendingExports t with
  | [] => t
  | _ :: _ =>
      let batch := pendingExports t in
      let t1 := set_pendingExports (λ _, []) t in
      let t2 := log "Exporting spans" t1 in
      set_inflight S
        (set_requests (λ r, r ++ [export_request (config t2) batch]) t2)
  end.

(** The rest of [exportSpans()], run when the awaited [fetch] settles.
    A body that cannot be read ([text = None], [json = None]) makes the
    inner [await] throw inside the same [try]. *)
Definition exportSpans_resume (o : FetchOutcome) (t : Tracer) : Tracer :=
  match inflight t with
  | O => t
  | S n =>
      let t1 := set_inflight (λ _, n) t in
      match o with
      | fetch_rejects error =>
          set_console (λ c, c ++ [console_error "[AgentBill] Export error:" error]) t1
      | response_not_ok (Some text) =>
          set_console (λ c, c ++ [console_error "[AgentBill] Export failed:" text]) t1
      | response_not_ok None =>
          set_console (λ c, c ++ [console_error "[AgentBill] Export error:" "TypeError"]) t1
      | response_ok (Some _) => log "Export successful" t1
      | response_ok None =>
          set_console (λ c, c ++ [console_error "[AgentBill] Export error:" "SyntaxError"]) t1
      end
  end.

Definition scheduleExport (t : Tracer) : Tracer :=
  let t1 := match exportTimer t with
            | Some h => clearTimeout h t
            | None => t
            end in
  if bool_decide (10 ≤ length (pendingExports t1))%nat
  then exportSpans t1
  else let '(h, t2) := setTimeout 1000 t1 in set_exportTimer (Some h) t2.

Definition endSpan (spanId_ : string) (t : Tracer) : Tracer :=
  match activeSpans t !! spanId_ with
  | None => t
  | Some span =>
      let span' := with_endTime (now t * 1000000) span in
      let t1 := set_activeSpans (delete spanId_) t in
      let t2 := set_pendingExports (λ p, p ++ [span']) t1 in
      let t3 := log "Span ended" t2 in
      scheduleExport t3
  end.

(** [flush()] up to the [await] inside [exportSpans]. *)
Definition flush (t : Tracer) : Tracer :=
  let t1 := match exportTimer t with
            | Some h => clearTimeout h t
            | None => t
            end in
  exportSpans t1.

(** ** The host's event loop *)

(** Run the callbacks of the timeouts that are due, oldest handle first;
    a callback is always [exportSpans]. *)
Definition fire_due (t : Tracer) : Tracer :=
  let due := filter (λ e, e.2 ≤ now t) (timers t) in
  let t1 := set_timers (filter (λ e, ¬ e.2 ≤ now t)) t in
  foldl (λ acc _, exportSpans acc) t1 due.

(** [dt] milliseconds pass while no tracer code runs; then the due
    timeouts fire.  One clock serves [Date.now] and the timeouts, and it
    does not run backwards: a negative [dt] counts as 0. *)
Definition advance (dt : Z) (t : Tracer) : Tracer :=
  fire_due (set_now (λ n, n + Z.max 0 dt) t).

(** ** wrapper.ts: values crossing the instrumented call *)

(** What a call can throw or reject with: an [Error] instance (with its
    [message], a string), or any other value, given by what
    [String(value)] makes of it: [Some text], or [None] when the value
    has no conversion to a primitive and [String] raises a [TypeError]
    (an object without [toString] and [valueOf], such as
    [Object.create(null)]). *)
Inductive Thrown : Type :=
| ThrownError (error_name message : string)
| ThrownValue (text : option string).

(** [error instanceof Error ? error.message : 'Unknown error']. *)
Definition status_message (error : Thrown) : string :=
  match error with
  | ThrownError _ message => message
  | ThrownValue _ => "Unknown error"
  end.

(** [error instanceof Error ? error.message : String(error)]: [None]
    when [String(error)] throws. *)
Definition error_text (error : Thrown) : option string :=
  match error with
  | ThrownError _ message => Some message
  | ThrownValue text => text
  end.

(** The text standing for a thrown value where it is only shown
    ([console.error] prints any value without converting it through
    [String]); it is [error_text] where that exists. *)
Definition error_message (error : Thrown) : string :=
  default "[object]" (error_text error).

(** The [TypeError] the engine raises when [String(error)] cannot
    convert its argument; the message text is the engine's. *)
Definition cannot_convert : Thrown :=
  ThrownError "TypeError" "Cannot convert object to primitive value".

(** The members of [params] (for Bedrock: of [command]) the wrappers
    read.  [size_] is [params.size]; [input_modelId] is
    [command.input?.modelId]. *)
Record Params : Type := {
  model : JsValue;
  temperature : JsValue;
  max_tokens : JsValue;
  size_ : JsValue;
  quality : JsValue;
  voice : JsValue;
  modelId : JsValue;
  input_modelId : JsValue
}.

(** A usage object: the counters the wrappers read, each a number when
    present. *)
Record Usage : Type := {
  prompt_tokens : option Z;
  completion_tokens : option Z;
  total_tokens : option Z;
  input_tokens : option Z;
  output_tokens : option Z
}.

(** [counter || 0] on a numeric counter. *)
Definition or0 (counter : option Z) : Z :=
  match counter with
  | Some n => if n =? 0 then 0 else n
  | None => 0
  end.

(** A truthy [response.body] as [instrumentBedrockCall] sees it:
    [transformToString] is missing or rejects; or it yields a text on
    which [JSON.parse] throws; or the text parses to [null]; or it
    parses to an object whose [usage] member is the given one ([None]
    when falsy), with counters that are numbers. *)
Inductive Body : Type :=
| body_unreadable (error : Thrown)
| body_malformed (bodyText : string)
| body_null
| body_json (usage : option Usage).

(** A provider response, an object: [usage] and [body] are [None]
    when falsy; [payload] stands for everything else it carries. *)
Record Response : Type := {
  payload : string;
  response_usage : option Usage;
  response_body : option Body
}.

Inductive Settled : Type :=
| resolves (response : Response)
| rejects (error : Thrown).

(** One run of the underlying provider function: how long it is awaited
    and how it settles. *)
Record ProviderCall : Type := {
  elapsed : Z;
  settled : Settled
}.

(** ** A small state-and-exception monad for the [async] bodies *)

Inductive Result (A : Type) : Type :=
| Returned (a : A)
| Threw (error : Thrown).
Arguments Returned {A} a.
Arguments Threw {A} error.

Definition Run (A : Type) : Type := Tracer → Result A * Tracer.

Definition ret {A} (a : A) : Run A := λ t, (Returned a, t).
Definition throw {A} (error : Thrown) : Run A := λ t, (Threw error, t).
Definition bind {A B} (c : Run A) (k : A → Run B) : Run B :=
  λ t, match c t with
       | (Returned a, t1) => k a t1
       | (Threw error, t1) => (Threw error, t1)
       end.
Definition lift (f : Tracer → Tracer) : Run unit := λ t, (Returned tt, f t).
Definition try_catch {A} (body : Run A) (handler : Thrown → Run A) : Run A :=
  λ t, match body t with
       | (Returned a, t1) => (Returned a, t1)
       | (Threw error, t1) => handler error t1
       end.

Notation "'do' x <- c ; k" := (bind c (λ x, k))
  (at level 10, x name, c at level 100, k at level 200).
Notation "c ;; k" := (bind c (λ _, k))
  (at level 100, k at level 200, right associativity).

(** [Date.now()]. *)
Definition Date_now : Run Z := λ t, (Returned (now t), t).

(** [await originalFn(params)]: the only point where the clock moves
    and timers fire during an instrumented call. *)
Definition await (call : ProviderCall) : Run Response :=
  λ t, let t1 := advance (elapsed call) t in
       match settled call with
       | resolves response => (Returned response, t1)
       | rejects error => (Threw error, t1)
       end.

(** ** wrapper.ts: the instrumented calls *)

Inductive Handler : Type :=
| OpenAICall | OpenAIEmbeddings | OpenAIImages | OpenAIAudioTranscription
| OpenAIAudioSpeech | OpenAIModerations | AnthropicCall | BedrockCall
| AzureOpenAICall | MistralCall.

(** The literal passed to [startSpan] by each [instrument...] method. *)
Definition spanName (h : Handler) : string :=
  match h with
  | OpenAICall => "openai.chat.completions.create"
  | OpenAIEmbeddings => "openai.embeddings.create"
  | OpenAIImages => "openai.images.generate"
  | OpenAIAudioTranscription => "openai.audio.transcriptions.create"
  | OpenAIAudioSpeech => "openai.audio.speech.create"
  | OpenAIModerations => "openai.moderations.create"
  | AnthropicCall => "anthropic.messages.create"
  | BedrockCall => "bedrock.invokeModel"
  | AzureOpenAICall => "azure_openai.chat.completions.create"
  | MistralCall => "mistral.chat.complete"
  end.

(** The value recorded as [gen_ai.system] and [ai.provider]. *)
Definition system (h : Handler) : string :=
  match h with
  | OpenAICall | OpenAIEmbeddings | OpenAIImages | OpenAIAudioTranscription
  | OpenAIAudioSpeech | OpenAIModerations => "openai"
  | AnthropicCall => "anthropic"
  | BedrockCall => "bedrock"
  | AzureOpenAICall => "azure_openai"
  | MistralCall => "mistral"
  end.

(** The model recorded: [params.model || '<default>'], for Bedrock
    [command.modelId || command.input?.modelId || 'unknown']. *)
Definition resolved_model (h : Handler) (p : Params) : JsValue :=
  match h with
  | OpenAIImages => js_or (model p) (JString "dall-e-3")
  | OpenAIAudioTranscription => js_or (model p) (JString "whisper-1")
  | OpenAIAudioSpeech => js_or (model p) (JString "tts-1")
  | OpenAIModerations => js_or (model p) (JString "text-moderation-latest")
  | BedrockCall =>
      js_or (js_or (modelId p) (input_modelId p)) (JString "unknown")
  | _ => js_or (model p) (JString "unknown")
  end.

Definition when (b : bool) (l : list (string * JsValue))
    : list (string * JsValue) := if b then l else [].

(** The request attributes set after the four common ones. *)
Definition extra_request_attributes (h : Handler) (p : Params)
    : list (string * JsValue) :=
  match h with
  | OpenAICall | AnthropicCall | AzureOpenAICall | MistralCall =>
      when (is_defined (temperature p))
           [("gen_ai.request.temperature", temperature p)]
      ++ when (is_defined (max_tokens p))
              [("gen_ai.request.max_tokens", max_tokens p)]
  | OpenAIImages =>
      when (truthy (size_ p)) [("image.size", size_ p)]
      ++ when (truthy (quality p)) [("image.quality", quality p)]
  | OpenAIAudioSpeech =>
      when (truthy (voice p)) [("audio.voice", voice p)]
  | _ => []
  end.

Definition request_attributes (h : Handler) (p : Params)
    : list (string * JsValue) :=
  [("gen_ai.system", JString (system h));
   ("gen_ai.request.model", resolved_model h p);
   ("ai.provider", JString (system h));
   ("ai.model", resolved_model h p)]
  ++ extra_request_attributes h p.

(** [this.tracer.setSpanAttribute(traceContext.spanId, k, v)] for each
    pair, in order. *)
Definition setSpanAttributes (spanId_ : string) (l : list (string * JsValue))
    (t : Tracer) : Tracer :=
  foldl (λ acc kv, setSpanAttribute spanId_ kv.1 kv.2 acc) t l.

Definition openai_usage (u : Usage) : list (string * JsValue) :=
  [("gen_ai.usage.prompt_tokens", JInt (or0 (prompt_tokens u)));
   ("gen_ai.usage.completion_tokens", JInt (or0 (completion_tokens u)));
   ("gen_ai.usage.total_tokens", JInt (or0 (total_tokens u)));
   ("ai.prompt_tokens", JInt (or0 (prompt_tokens u)));
   ("ai.completion_tokens", JInt (or0 (completion_tokens u)));
   ("ai.total_tokens", JInt (or0 (total_tokens u)))].

Definition embeddings_usage (u : Usage) : list (string * JsValue) :=
  [("gen_ai.usage.prompt_tokens", JInt (or0 (prompt_tokens u)));
   ("gen_ai.usage.total_tokens", JInt (or0 (total_tokens u)));
   ("ai.prompt_tokens", JInt (or0 (prompt_tokens u)));
   ("ai.total_tokens", JInt (or0 (total_tokens u)))].

(** The integer a JS number holds when it stands for the integer [z]:
    the nearest value with a 53-bit significand, ties to even (integers
    up to 2^53 in magnitude are held exactly; the overflow to
    [Infinity] beyond 2^1024 is left out). *)
Definition nearest_double (z : Z) : Z :=
  let a := Z.abs z in
  let bits := Z.log2 a + 1 in
  if bits <=? 53 then z
  else
    let s := bits - 53 in
    let q := a / 2 ^ s in
    let r := a mod 2 ^ s in
    let half := 2 ^ (s - 1) in
    let q' := if (half <? r) || ((r =? half) && Z.odd q) then q + 1 else q in
    Z.sgn z * (q' * 2 ^ s).

(** [a + b] on two numbers holding integers. *)
Definition js_add (a b : Z) : Z := nearest_double (a + b).

Definition anthropic_usage (u : Usage) : list (string * JsValue) :=
  [("gen_ai.usage.prompt_tokens", JInt (or0 (input_tokens u)));
   ("gen_ai.usage.completion_tokens", JInt (or0 (output_tokens u)));
   ("gen_ai.usage.total_tokens",
      JInt (js_add (or0 (input_tokens u)) (or0 (output_tokens u))));
   ("ai.prompt_tokens", JInt (or0 (input_tokens u)));
   ("ai.completion_tokens", JInt (or0 (output_tokens u)));
   ("ai.total_tokens",
      JInt (js_add (or0 (input_tokens u)) (or0 (output_tokens u))))].

(** The usage extraction between the latency attribute and
    [setSpanStatus(…, 0)].  Only the Bedrock one can throw; the message
    texts of the errors the engine raises are abbreviated. *)
Definition extract_usage (h : Handler) (spanId_ : string)
    (response : Response) : Run unit :=
  match h with
  | OpenAICall | AzureOpenAICall | MistralCall =>
      match response_usage response with
      | Some u => lift (setSpanAttributes spanId_ (openai_usage u))
      | None => ret tt
      end
  | OpenAIEmbeddings =>
      match response_usage response with
      | Some u => lift (setSpanAttributes spanId_ (embeddings_usage u))
      | None => ret tt
      end
  | AnthropicCall =>
      match response_usage response with
      | Some u => lift (setSpanAttributes spanId_ (anthropic_usage u))
      | None => ret tt
      end
  | BedrockCall =>
      match response_body response with
      | None => ret tt
      | Some (body_unreadable error) => throw error
      | Some (body_malformed _) =>
          throw (ThrownError "SyntaxError" "Unexpected token in JSON")
      | Some body_null =>
          throw (ThrownError "TypeError"
                   "Cannot read properties of null (reading 'usage')")
      | Some (body_json (Some u)) =>
          lift (setSpanAttributes spanId_ (anthropic_usage u))
      | Some (body_json None) => ret tt
      end
  | _ => ret tt
  end.

(** The statements of the [try] block before [await]: they read
    [params], which throws a [TypeError] when the argument is nullish
    ([params = None]).  All but the Bedrock method have already set
    [gen_ai.system] by then.  The message of the [TypeError] is the
    engine's; the text here stands for it. *)
Definition record_request (h : Handler) (spanId_ : string)
    (params : option Params) : Run unit :=
  match params with
  | Some p => lift (setSpanAttributes spanId_ (request_attributes h p))
  | None =>
      match h with
      | BedrockCall => ret tt
      | _ => lift (setSpanAttribute spanId_ "gen_ai.system" (JString (system h)))
      end ;;
      throw (ThrownError "TypeError"
               "Cannot read properties of undefined")
  end.

(** The ten [instrument...] methods share one shape; [h] selects the
    literals and the usage extraction. *)
Definition instrument (h : Handler)
    (originalFn : option Params → ProviderCall) (params : option Params)
    : Run Response :=
  λ t,
  let '(traceContext, t0) := startSpan (spanName h) None t in
  let startTime := now t0 in
  let id := tc_spanId traceContext in
  try_catch
    (record_request h id params ;;
     do response <- await (originalFn params) ;
     do finished <- Date_now ;
     lift (setSpanAttribute id "gen_ai.response.latency_ms"
             (JInt (finished - startTime))) ;;
     extract_usage h id response ;;
     lift (setSpanStatus id 0 None) ;;
     lift (endSpan id) ;;
     ret response)
    (λ error,
     lift (setSpanStatus id 2 (Some (status_message error))) ;;
     lift (setSpanAttribute id "error" (JBool true)) ;;
     match error_text error with
     | Some text =>
         lift (setSpanAttribute id "error.message" (JString text)) ;;
         lift (endSpan id) ;;
         throw error
     | None => throw cannot_convert
     end)
    t0.

(** The methods under their names in [wrapper.ts]. *)
Definition instrumentOpenAICall := instrument OpenAICall.
Definition instrumentOpenAIEmbeddings := instrument OpenAIEmbeddings.
Definition instrumentOpenAIImages := instrument OpenAIImages.
Definition instrumentOpenAIAudioTranscription :=
  instrument OpenAIAudioTranscription.
Definition instrumentOpenAIAudioSpeech := instrument OpenAIAudioSpeech.
Definition instrumentOpenAIModerations := instrument OpenAIModerations.
Definition instrumentAnthropicCall := instrument AnthropicCall.
Definition instrumentBedrockCall := instrument BedrockCall.
Definition instrumentAzureOpenAICall := instrument AzureOpenAICall.
Definition instrumentMistralCall := instrument MistralCall.

(** ** wrapper.ts: the proxies *)

(** A property key: [string | symbol]. *)
Inductive PropKey : Type :=
| PStr (s : string)
| PSym (description : string).

(** [prop === 'literal']. *)
Definition is_key (prop : PropKey) (literal : string) : bool :=
  match prop with
  | PStr s => String.eqb s literal
  | PSym _ => false
  end.

(** A client and the values reachable from it.  [CPrim] is a primitive
    (there [JObject] stands for a symbol or a bigint); [CObj] is an
    object with the properties a read finds on it and, for a function,
    the identity of its code. *)
#[local] Unset Elimination Schemes.
Inductive ClientValue : Type :=
| CPrim (v : JsValue)
| CObj (callable : option nat) (props : list (PropKey * ClientValue)).
#[local] Set Elimination Schemes.

Definition PropKey_eqb (a b : PropKey) : bool :=
  match a, b with
  | PStr x, PStr y => String.eqb x y
  | PSym x, PSym y => String.eqb x y
  | _, _ => false
  end.

Fixpoint lookup_prop (props : list (PropKey * ClientValue)) (prop : PropKey)
    : ClientValue :=
  match props with
  | [] => CPrim JUndefined
  | (k, v) :: rest => if PropKey_eqb k prop then v else lookup_prop rest prop
  end.

(** [target[prop]] on an object. *)
Definition read (target : ClientValue) (prop : PropKey) : ClientValue :=
  match target with
  | CObj _ props => lookup_prop props prop
  | CPrim _ => CPrim JUndefined
  end.

Definition is_object (v : ClientValue) : bool :=
  match v with CObj _ _ => true | CPrim _ => false end.


(** The [get] handlers written in [wrapper.ts], one per proxy layer. *)
Inductive Trap : Type :=
| OpenAI_client | OpenAI_chat | OpenAI_completions | OpenAI_embeddings
| OpenAI_images | OpenAI_audio | OpenAI_transcriptions | OpenAI_speech
| OpenAI_moderations
| Anthropic_client | Anthropic_messages
| Bedrock_client
| Azure_client | Azure_chat | Azure_completions
| Mistral_client | Mistral_chat.

(** What reading a property yields: the target's own value, returned as
    it is; a new proxy over a target; the [async function(params)] that
    calls [instrument h] on [fn.bind(receiver)]; or a [TypeError]. *)
Inductive Got : Type :=
| Forwarded (v : ClientValue)
| Proxied (trap : Trap) (target : ClientValue)
| Instrumented (h : Handler) (fn receiver : ClientValue)
| TypeError.

(** [new Proxy(target, handler)]: throws unless [target] is an object. *)
Definition new_Proxy (target : ClientValue) (trap : Trap) : Got :=
  if is_object target then Proxied trap target else TypeError.

(** The [get] trap of one layer, on a target whose members are ordinary
    data properties (a frozen member would make the engine reject a
    trap result that differs from it). *)
Definition trap_get (trap : Trap) (target : ClientValue) (prop : PropKey)
    : Got :=
  let original := read target prop in
  match trap with
  | OpenAI_client =>
      if is_key prop "chat" then new_Proxy original OpenAI_chat
      else if is_key prop "embeddings" then new_Proxy original OpenAI_embeddings
      else if is_key prop "images" then new_Proxy original OpenAI_images
      else if is_key prop "audio" then new_Proxy original OpenAI_audio
      else if is_key prop "moderations" then new_Proxy original OpenAI_moderations
      else Forwarded original
  | OpenAI_chat =>
      if is_key prop "completions" then new_Proxy original OpenAI_completions
      else Forwarded original
  | OpenAI_completions =>
      if is_key prop "create" then Instrumented OpenAICall original target
      else Forwarded original
  | OpenAI_embeddings =>
      if is_key prop "create" then Instrumented OpenAIEmbeddings original target
      else Forwarded original
  | OpenAI_images =>
      if is_key prop "generate" then Instrumented OpenAIImages original target
      else Forwarded original
  | OpenAI_audio =>
      if is_key prop "transcriptions"
      then new_Proxy original OpenAI_transcriptions
      else if is_key prop "speech" then new_Proxy original OpenAI_speech
      else Forwarded original
  | OpenAI_transcriptions =>
      if is_key prop "create"
      then Instrumented OpenAIAudioTranscription original target
      else Forwarded original
  | OpenAI_speech =>
      if is_key prop "create" then Instrumented OpenAIAudioSpeech original target
      else Forwarded original
  | OpenAI_moderations =>
      if is_key prop "create" then Instrumented OpenAIModerations original target
      else Forwarded original
  | Anthropic_client =>
      if is_key prop "messages" then new_Proxy original Anthropic_messages
      else Forwarded original
  | Anthropic_messages =>
      if is_key prop "create" then Instrumented AnthropicCall original target
      else Forwarded original
  | Bedrock_client =>
      if is_key prop "invokeModel" || is_key prop "send"
      then Instrumented BedrockCall original target
      else Forwarded original
  | Azure_client =>
      if is_key prop "chat" then new_Proxy original Azure_chat
      else Forwarded original
  | Azure_chat =>
      if is_key prop "completions" then new_Proxy original Azure_completions
      else Forwarded original
  | Azure_completions =>
      if is_key prop "create" then Instrumented AzureOpenAICall original target
      else Forwarded original
  | Mistral_client =>
      if is_key prop "chat" then new_Proxy original Mistral_chat
      else Forwarded original
  | Mistral_chat =>
      if is_key prop "complete" || is_key prop "stream"
      then Instrumented MistralCall original target
      else Forwarded original
  end.

Definition wrapOpenAI (client_ : ClientValue) : Got :=
  new_Proxy client_ OpenAI_client.
Definition wrapAnthropic (client_ : ClientValue) : Got :=
  new_Proxy client_ Anthropic_client.
Definition wrapBedrock (client_ : ClientValue) : Got :=
  new_Proxy client_ Bedrock_client.
Definition wrapAzureOpenAI (client_ : ClientValue) : Got :=
  new_Proxy client_ Azure_client.
Definition wrapMistral (client_ : ClientValue) : Got :=
  new_Proxy client_ Mistral_client.

(** [value[prop]] on what an earlier read produced.  Reading from a
    nullish value throws; the own properties of primitives and of the
    generated [async] functions are not modelled and read as
    [undefined]. *)
Definition get (value : Got) (prop : PropKey) : Got :=
  match value with
  | Proxied trap target => trap_get trap target prop
  | Forwarded (CObj callable props) => Forwarded (lookup_prop props prop)
  | Forwarded (CPrim JUndefined) | Forwarded (CPrim JNull) => TypeError
  | Forwarded (CPrim _) => Forwarded (CPrim JUndefined)
  | Instrumented _ _ _ => Forwarded (CPrim JUndefined)
  | TypeError => TypeError
  end.

(** [wrapped.a.b.c]: the reads along a path, left to right. *)
Definition get_path (value : Got) (path : list string) : Got :=
  foldl (λ v s, get v (PStr s)) value path.


(** The five providers with a [wrap...] method and their identifiers. *)
Inductive Provider : Type := openai | anthropic | bedrock | azure_openai | mistral.


Definition wrap (p : Provider) (client_ : ClientValue) : Got :=
  match p with
  | openai => wrapOpenAI client_
  | anthropic => wrapAnthropic client_
  | bedrock => wrapBedrock client_
  | azure_openai => wrapAzureOpenAI client_
  | mistral => wrapMistral client_
  end.


(** ** index.ts: the facade *)

(** The [data] member of the argument of [trackSignal]: missing (falsy),
    an object [JSON.stringify] renders as the given text, or a value it
    throws on. *)
Inductive SignalData : Type :=
| data_missing
| data_json (text : string)
| data_unserializable (error : Thrown).

(** The members [trackSignal] reads from its argument. *)
Record SignalParams : Type := {
  event_name : JsValue;
  revenue : JsValue;
  data : SignalData
}.

(** One [fetch] call as issued by [trackSignal]; the members of the
    body are the values handed to [JSON.stringify]. *)
Record SignalRequest : Type := {
  signal_url : string;
  authorization : string;
  signal_event_name : JsValue;
  signal_revenue : JsValue;
  customer_id : option string;
  timestamp : Z;
  signal_data : string;
  data_source : string
}.

(** [AgentBill]: the wrapper it owns (whose tracer and host state is the
    [Tracer] record) and the signal requests issued so far. *)
Record AgentBill : Type := {
  wrapper : Tracer;
  signals : list SignalRequest;
  signals_inflight : nat
}.

(** [AgentBill.init(config)]. *)
Definition init (cfg : AgentBillConfig) (clock : Z) (tape : nat → N)
    : AgentBill :=
  {| wrapper := new_Tracer cfg clock tape; signals := [];
     signals_inflight := 0%nat |}.

(** [console.log] or [console.error] under [config.debug]. *)
Definition debug_line (line : ConsoleLine) (a : AgentBill) : AgentBill :=
  {| wrapper :=
       set_console
         (λ c, if debug (config (wrapper a)) then c ++ [line] else c)
         (wrapper a);
     signals := signals a; signals_inflight := signals_inflight a |}.

(** The line [console.error('[AgentBill] Failed to track signal:', error)]. *)
Definition signal_failed (error : Thrown) : ConsoleLine :=
  console_error "[AgentBill] Failed to track signal:" (error_message error).

(** The line logged once the awaited [fetch] has resolved. *)
Definition signal_tracked (params : SignalParams) : ConsoleLine :=
  console_log ("[AgentBill] Signal tracked: " +:+ js_String (event_name params)
               +:+ ", revenue: $"
               +:+ js_String (js_or (revenue params) (JInt 0))).

(** [trackSignal(params)] up to its [await]: reading a member of a
    nullish argument ([params = None]) or serializing the body can throw
    inside the [try], and then no request is issued. *)
Definition trackSignal (params : option SignalParams) (a : AgentBill)
    : AgentBill :=
  let cfg := config (wrapper a) in
  let url_ := default "https://bgwyprqxtdreuutzpbgw.supabase.co"
                      (truthy_str (baseUrl cfg))
              +:+ "/functions/v1/record-signals" in
  match params with
  | None =>
      debug_line
        (signal_failed
           (ThrownError "TypeError" "Cannot read properties of undefined")) a
  | Some p =>
      match data p with
      | data_unserializable error => debug_line (signal_failed error) a
      | _ =>
          {| wrapper := wrapper a;
             signals :=
               signals a
               ++ [{| signal_url := url_;
                      authorization := "Bearer " +:+ apiKey cfg;
                      signal_event_name := event_name p;
                      signal_revenue := js_or (revenue p) (JInt 0);
                      customer_id := customerId cfg;
                      timestamp := now (wrapper a);
                      signal_data :=
                        match data p with
                        | data_json text => text
                        | _ => "{}"
                        end;
                      data_source := "sdk" |}];
             signals_inflight := S (signals_inflight a) |}
      end
  end.

(** How the [fetch] of a signal settles: it resolves with a response, of
    whatever status, or it rejects. *)
Inductive SignalOutcome : Type :=
| signal_resolves (ok : bool)
| signal_rejects (error : Thrown).

(** The rest of [trackSignal(params)], run when its [fetch] settles. *)
Definition trackSignal_resume (params : SignalParams) (o : SignalOutcome)
    (a : AgentBill) : AgentBill :=
  match signals_inflight a with
  | O => a
  | S n =>
      let a1 := {| wrapper := wrapper a; signals := signals a;
                   signals_inflight := n |} in
      match o with
      | signal_resolves _ => debug_line (signal_tracked params) a1
      | signal_rejects error => debug_line (signal_failed error) a1
      end
  end.

(** [AgentBill.flush()], which is the wrapper's, which is the
    tracer's. *)
Definition AgentBill_flush (a : AgentBill) : AgentBill :=
  {| wrapper := flush (wrapper a); signals := signals a;
     signals_inflight := signals_inflight a |}.

(** ** Histories and reachable states *)

(** Every span closed so far, in closing order: the batches already
    handed to [fetch], then the pending sequence. *)
Definition closedSpans (t : Tracer) : list SpanData :=
  concat (map (λ r, spans (body r)) (requests t)) ++ pendingExports t.

(** What can happen to a tracer: a call of one of its public methods,
    time passing, or an awaited [fetch] settling. *)
Inductive Op : Type :=
| op_startSpan (name_ : string) (traceContext : option TraceContext)
| op_setSpanAttribute (spanId_ key : string) (value : JsValue)
| op_setSpanStatus (spanId_ : string) (code : Z) (message : option string)
| op_endSpan (spanId_ : string)
| op_flush
| op_advance (dt : Z)
| op_settle (o : FetchOutcome).

Definition step (op : Op) (t : Tracer) : Tracer :=
  match op with
  | op_startSpan name_ traceContext => (startSpan name_ traceContext t).2
  | op_setSpanAttribute spanId_ key value => setSpanAttribute spanId_ key value t
  | op_setSpanStatus spanId_ code message => setSpanStatus spanId_ code message t
  | op_endSpan spanId_ => endSpan spanId_ t
  | op_flush => flush t
  | op_advance dt => advance dt t
  | op_settle o => exportSpans_resume o t
  end.

Definition run (ops : list Op) (t : Tracer) : Tracer :=
  foldl (λ acc op, step op acc) t ops.

Definition reachable (t : Tracer) : Prop :=
  ∃ cfg clock tape ops, t = run ops (new_Tracer cfg clock tape).

(** [N] calls of [startSpan] in a row, with the contexts they return. *)
Fixpoint startSpans (calls : list (string * option TraceContext)) (t : Tracer)
    : list TraceContext * Tracer :=
  match calls with
  | [] => ([], t)
  | (name_, traceContext) :: rest =>
      let '(c, t1) := startSpan name_ traceContext t in
      let '(cs, t2) := startSpans rest t1 in
      (c :: cs, t2)
  end.

(** A trickle of appends: before each [endSpan], [dt] milliseconds
    pass. *)
Fixpoint trickle (appends : list (Z * string)) (t : Tracer) : Tracer :=
  match appends with
  | [] => t
  | (dt, spanId_) :: rest => trickle rest (endSpan spanId_ (advance dt t))
  end.

(** The invariant of the registry and the exporter: every active span is
    filed under its own id; at most one timeout is armed, it is the one
    [exportTimer] holds, and it is armed only while spans are pending;
    fewer than ten spans are pending between calls. *)
Definition keyed (t : Tracer) : Prop :=
  ∀ k s, activeSpans t !! k = Some s → spanId s = k.

Definition one_timer (t : Tracer) : Prop :=
  match timers t with
  | [] => True
  | [(h, _)] => exportTimer t = Some h ∧ pendingExports t ≠ []
  | _ => False
  end.

Definition below_threshold (t : Tracer) : Prop :=
  (length (pendingExports t) < 10)%nat.

Definition tracer_inv (t : Tracer) : Prop :=
  keyed t ∧ one_timer t ∧ below_threshold t.

(** ** Notions used in the statements and proofs *)

(** The span filed under [id] is [s], the closed spans are [c] and the
    clock reads [n]. *)
Definition at_ (id : string) (s : SpanData) (c : list SpanData) (n : Z)
    (t : Tracer) : Prop :=
  activeSpans t !! id = Some s ∧ closedSpans t = c ∧ now t = n.

(** [setSpanAttribute] applied along a list, seen on the span. *)
Definition push_all (l : list (string * JsValue)) (s : SpanData) : SpanData :=
  foldl (λ acc kv, push_attribute kv.1 (encodeValue kv.2) acc) s l.

(** The attributes a list of [setSpanAttribute] calls appends. *)
Definition encoded (l : list (string * JsValue)) : list (string * AnyValue) :=
  (λ kv, (kv.1, encodeValue kv.2)) <$> l.

(** The usage attributes a resolved call records, when the extraction
    does not throw. *)
Definition usage_attributes (h : Handler) (r : Response)
    : list (string * JsValue) :=
  match h with
  | OpenAICall | AzureOpenAICall | MistralCall =>
      from_option openai_usage [] (response_usage r)
  | OpenAIEmbeddings => from_option embeddings_usage [] (response_usage r)
  | AnthropicCall => from_option anthropic_usage [] (response_usage r)
  | BedrockCall =>
      match response_body r with
      | Some (body_json (Some u)) => anthropic_usage u
      | _ => []
      end
  | _ => []
  end.

(** What the usage extraction throws, if anything. *)
Definition usage_failure (h : Handler) (r : Response) : option Thrown :=
  match h, response_body r with
  | BedrockCall, Some (body_unreadable error) => Some error
  | BedrockCall, Some (body_malformed _) =>
      Some (ThrownError "SyntaxError" "Unexpected token in JSON")
  | BedrockCall, Some body_null =>
      Some (ThrownError "TypeError"
              "Cannot read properties of null (reading 'usage')")
  | _, _ => None
  end.

(** [Number.isSafeInteger]: the integers a number holds exactly, with
    exact neighbours. *)
Definition safe_integer (z : Z) : bool := Z.abs z <=? 2 ^ 53 - 1.

(** The two counters a messages-style usage object yields (0 for an
    absent one) and their sum are safe integers. *)
Definition safe_usage (u : Usage) : bool :=
  safe_integer (default 0 (input_tokens u))
  && safe_integer (default 0 (output_tokens u))
  && safe_integer (default 0 (input_tokens u) + default 0 (output_tokens u)).

(** The [catch] block, run on a state where the span is still filed:
    it stops before the third call when [String(error)] throws. *)
Definition caught (id : string) (error : Thrown) (t : Tracer) : Tracer :=
  let marked :=
    setSpanAttribute id "error" (JBool true)
      (setSpanStatus id 2 (Some (status_message error)) t) in
  match error_text error with
  | Some text =>
      endSpan id (setSpanAttribute id "error.message" (JString text) marked)
  | None => marked
  end.

(** What the [catch] block leaves the call rejecting with. *)
Definition rethrown (error : Thrown) : Thrown :=
  match error_text error with
  | Some _ => error
  | None => cannot_convert
  end.

(** The two attributes the [catch] block appends. *)
Definition error_attributes (error : Thrown) : list (string * AnyValue) :=
  [("error", boolValue true);
   ("error.message", stringValue (error_message error))].

(** A send has failed when [fetch] rejects or the response is not ok. *)
Definition send_failed (o : FetchOutcome) : bool :=
  match o with
  | fetch_rejects _ | response_not_ok _ => true
  | response_ok _ => false
  end.

(** The top-level names the OpenAI wrapper puts a proxy on. *)
Definition openai_prefixes : list string :=
  ["chat"; "embeddings"; "images"; "audio"; "moderations"].

(** The dispatch table the [get] handlers implement: under each proxy
    layer, the property names that lead to a further layer or to an
    instrumented method. *)
Definition edge (trap : Trap) (k : string) : option (Trap + Handler) :=
  match trap with
  | OpenAI_client =>
      if String.eqb k "chat" then Some (inl OpenAI_chat)
      else if String.eqb k "embeddings" then Some (inl OpenAI_embeddings)
      else if String.eqb k "images" then Some (inl OpenAI_images)
      else if String.eqb k "audio" then Some (inl OpenAI_audio)
      else if String.eqb k "moderations" then Some (inl OpenAI_moderations)
      else None
  | OpenAI_chat =>
      if String.eqb k "completions" then Some (inl OpenAI_completions) else None
  | OpenAI_completions =>
      if String.eqb k "create" then Some (inr OpenAICall) else None
  | OpenAI_embeddings =>
      if String.eqb k "create" then Some (inr OpenAIEmbeddings) else None
  | OpenAI_images =>
      if String.eqb k "generate" then Some (inr OpenAIImages) else None
  | OpenAI_audio =>
      if String.eqb k "transcriptions" then Some (inl OpenAI_transcriptions)
      else if String.eqb k "speech" then Some (inl OpenAI_speech)
      else None
  | OpenAI_transcriptions =>
      if String.eqb k "create" then Some (inr OpenAIAudioTranscription) else None
  | OpenAI_speech =>
      if String.eqb k "create" then Some (inr OpenAIAudioSpeech) else None
  | OpenAI_moderations =>
      if String.eqb k "create" then Some (inr OpenAIModerations) else None
  | Anthropic_client =>
      if String.eqb k "messages" then Some (inl Anthropic_messages) else None
  | Anthropic_messages =>
      if String.eqb k "create" then Some (inr AnthropicCall) else None
  | Bedrock_client =>
      if String.eqb k "invokeModel" || String.eqb k "send"
      then Some (inr BedrockCall) else None
  | Azure_client =>
      if String.eqb k "chat" then Some (inl Azure_chat) else None
  | Azure_chat =>
      if String.eqb k "completions" then Some (inl Azure_completions) else None
  | Azure_completions =>
      if String.eqb k "create" then Some (inr AzureOpenAICall) else None
  | Mistral_client =>
      if String.eqb k "chat" then Some (inl Mistral_chat) else None
  | Mistral_chat =>
      if String.eqb k "complete" || String.eqb k "stream"
      then Some (inr MistralCall) else None
  end.

(** The instrumented method a call path leads to, if any. *)
Fixpoint route (trap : Trap) (path : list string) : option Handler :=
  match path with
  | [] => None
  | k :: rest =>
      match edge trap k with
      | Some (inr h) => match rest with [] => Some h | _ => None end
      | Some (inl below) => route below rest
      | None => None
      end
  end.

(** The handler on the proxy [wrap...] returns. *)
Definition client_trap (p : Provider) : Trap :=
  match p with
  | openai => OpenAI_client
  | anthropic => Anthropic_client
  | bedrock => Bedrock_client
  | azure_openai => Azure_client
  | mistral => Mistral_client
  end.

(** Every intercepted call path, with the method that handles it. *)
Definition intercepted : list (Provider * list string * Handler) :=
  [(openai, ["chat"; "completions"; "create"], OpenAICall);
   (openai, ["embeddings"; "create"], OpenAIEmbeddings);
   (openai, ["images"; "generate"], OpenAIImages);
   (openai, ["audio"; "transcriptions"; "create"], OpenAIAudioTranscription);
   (openai, ["audio"; "speech"; "create"], OpenAIAudioSpeech);
   (openai, ["moderations"; "create"], OpenAIModerations);
   (anthropic, ["messages"; "create"], AnthropicCall);
   (bedrock, ["invokeModel"], BedrockCall);
   (bedrock, ["send"], BedrockCall);
   (azure_openai, ["chat"; "completions"; "create"], AzureOpenAICall);
   (mistral, ["chat"; "complete"], MistralCall);
   (mistral, ["chat"; "stream"], MistralCall)].

(** The spans an operation closes: one for [endSpan] on an active id. *)
Definition closed_by (op : Op) (t : Tracer) : list SpanData :=
  match op with
  | op_endSpan spanId_ =>
      match activeSpans t !! spanId_ with
      | Some s => [with_endTime (now t * 1000000) s]
      | None => []
      end
  | _ => []
  end.

(** The spans closed along a run, in order. *)
Fixpoint closed_along (ops : list Op) (t : Tracer) : list SpanData :=
  match ops with
  | [] => []
  | op :: rest => closed_by op t ++ closed_along rest (step op t)
  end.

(** The span id an operation addresses or, for [startSpan], generates. *)
Definition subject (op : Op) (t : Tracer) : option string :=
  match op with
  | op_startSpan name_ traceContext =>
      Some (tc_spanId (startSpan name_ traceContext t).1)
  | op_setSpanAttribute spanId_ _ _ | op_setSpanStatus spanId_ _ _
  | op_endSpan spanId_ => Some spanId_
  | _ => None
  end.

(** While spans are pending, the one armed timeout is due within
    1000 ms. *)
Definition flush_due_soon (t : Tracer) : Prop :=
  pendingExports t ≠ [] →
  ∃ h d, timers t = [(h, d)] ∧ d ≤ now t + 1000.

(** Active spans have no end time; closed spans have one. *)
Definition ended_when_closed (t : Tracer) : Prop :=
  (∀ k s, activeSpans t !! k = Some s → endTimeUnixNano s = None)
  ∧ Forall (λ s, is_Some (endTimeUnixNano s)) (closedSpans t).

(** The sixteen characters [toString(16)] produces. *)
Definition is_hex (c : Ascii.ascii) : bool :=
  bool_decide (c ∈ String.list_ascii_of_string "0123456789abcdef").

(** The value of a hexadecimal digit character. *)
Definition hex_value (c : Ascii.ascii) : N :=
  match list_find (λ x, x = c)
          (String.list_ascii_of_string "0123456789abcdef") with
  | Some (i, _) => N.of_nat i
  | None => 0%N
  end.

(** The byte two hexadecimal characters denote. *)
Definition unhex (s : string) : N :=
  match s with
  | String hi (String lo _) => (hex_value hi * 16 + hex_value lo)%N
  | _ => 0%N
  end.

(** The only field of the tracer [trackSignal] can change. *)
Definition same_but_console (t t' : Tracer) : Prop :=
  set_console (λ _, []) t' = set_console (λ _, []) t.

(** ** Sample data for the worked instances *)

(** The configuration of the repository's tests. *)
Definition demo_config : AgentBillConfig :=
  {| apiKey := "test-api-key"; baseUrl := None;
     customerId := Some "test-customer-id"; debug := false |}.

(** A tape whose cells count up, so that successive ids differ. *)
Definition counting_tape : nat → N := N.of_nat.

(** A tape stuck at zero: every id drawn from it is the same. *)
Definition stuck_tape : nat → N := λ _, 0%N.

(** A fresh tracer. *)
Definition demo_tracer : Tracer :=
  new_Tracer demo_config 1700000000000 counting_tape.

(** One span opened and closed: it is pending. *)
Definition one_ended : Tracer :=
  run [op_startSpan "openai.embeddings.create" None;
       op_endSpan "1011121314151617"] demo_tracer.

(** The span ids of the first ten spans [demo_tracer] opens. *)
Definition ten_ids : list string :=
  Eval vm_compute in
    tc_spanId <$> (startSpans (replicate 10 ("mistral.chat.complete", None))
                     demo_tracer).1.

(** Ten spans opened, the first nine already closed: nine are pending. *)
Definition nine_pending : Tracer :=
  run (replicate 10 (op_startSpan "mistral.chat.complete" None)
       ++ (op_endSpan <$> take 9 ten_ids)) demo_tracer.

(** Three spans opened, none closed. *)
Definition three_open : Tracer :=
  run (replicate 3 (op_startSpan "mistral.chat.complete" None)) demo_tracer.

(** Chat parameters. *)
Definition demo_params : Params :=
  {| model := JString "gpt-4"; temperature := JFrac "0.7";
     max_tokens := JInt 256;
     size_ := JUndefined; quality := JUndefined; voice := JUndefined;
     modelId := JUndefined; input_modelId := JUndefined |}.

(** An [InvokeModelCommand]. *)
Definition demo_command : Params :=
  {| model := JUndefined; temperature := JUndefined; max_tokens := JUndefined;
     size_ := JUndefined; quality := JUndefined; voice := JUndefined;
     modelId := JString "anthropic.claude-3-5-sonnet-20241022-v2:0";
     input_modelId := JUndefined |}.

(** [usage = {input_tokens: 7, output_tokens: 3}]. *)
Definition usage_7_3 : Usage :=
  {| prompt_tokens := None; completion_tokens := None; total_tokens := None;
     input_tokens := Some 7; output_tokens := Some 3 |}.

(** A messages-style response carrying that usage. *)
Definition messages_response : Response :=
  {| payload := "msg_01"; response_usage := Some usage_7_3;
     response_body := None |}.

(** A Bedrock response whose body decodes to text that is not JSON. *)
Definition garbled_response : Response :=
  {| payload := "invoke_01"; response_usage := None;
     response_body := Some (body_malformed "<html>Bad Gateway</html>") |}.

(** A provider function that settles the same way on every call. *)
Definition always (dt : Z) (s : Settled) : option Params → ProviderCall :=
  λ _, {| elapsed := dt; settled := s |}.

(** A client whose [chat] member is missing and whose [apiKey] member is
    a string. *)
Definition bare_client : ClientValue :=
  CObj None [(PStr "apiKey", CPrim (JString "sk-test"))].



(** Two spans opened on the counting tape. *)
Definition two_open : Tracer :=
  (startSpans [("a", None); ("b", None)] demo_tracer).2.


(** [usage = {prompt_tokens: 10, completion_tokens: 5}], no total. *)
Definition usage_10_5 : Usage :=
  {| prompt_tokens := Some 10; completion_tokens := Some 5;
     total_tokens := None; input_tokens := None; output_tokens := None |}.

Definition chat_response : Response :=
  {| payload := "chatcmpl-01"; response_usage := Some usage_10_5;
     response_body := None |}.

(** A Bedrock response whose body is JSON with a usage member. *)
Definition invoke_response : Response :=
  {| payload := "invoke_02"; response_usage := None;
     response_body := Some (body_json (Some usage_7_3)) |}.

(** An OpenAI-like client with a [models] member next to [chat]. *)
Definition openai_client : ClientValue :=
  CObj None
    [(PStr "apiKey", CPrim (JString "sk-test"));
     (PStr "models", CObj None [(PStr "list", CObj (Some 7%nat) [])]);
     (PStr "chat",
      CObj None
        [(PStr "completions",
          CObj None [(PStr "create", CObj (Some 4%nat) []);
                     (PStr "list", CObj (Some 5%nat) [])])])].

(** A signal with revenue and no data. *)
Definition demo_signal : SignalParams :=
  {| event_name := JString "user_action"; revenue := JFrac "10.5";
     data := data_missing |}.

(** A parent context with a trace id and no customer id. *)
Definition demo_parent : TraceContext :=
  {| tc_traceId := "000102030405060708090a0b0c0d0e0f";
     tc_spanId := "1011121314151617"; tc_customerId := None |}.

(** A second fresh tracer, on the same tape but another clock. *)
Definition later_tracer : Tracer :=
  new_Tracer demo_config 1700000005000 counting_tape.

(** * Properties *)

(** Closes a decidable goal about concrete data by evaluation. *)
Ltac by_compute := apply (bool_decide_unpack _); vm_compute; exact I.

(** ** Frame lemmas: which fields each method leaves alone *)

Lemma exportSpans_empty t : pendingExports t = [] → exportSpans t = t.
Proof. unfold exportSpans. by intros ->. Qed.

Lemma exportSpans_fields t :
  activeSpans (exportSpans t) = activeSpans t
  ∧ pendingExports (exportSpans t) = []
  ∧ exportTimer (exportSpans t) = exportTimer t
  ∧ timers (exportSpans t) = timers t
  ∧ now (exportSpans t) = now t
  ∧ config (exportSpans t) = config t
  ∧ closedSpans (exportSpans t) = closedSpans t.
Proof.
  unfold exportSpans, closedSpans.
  destruct (pendingExports t) as [|s p] eqn:E.
  - rewrite E. by rewrite app_nil_r.
  - simpl. rewrite map_app, concat_app. simpl. by rewrite !app_nil_r.
Qed.

Lemma startSpan_fields name_ traceContext t :
  let c := (startSpan name_ traceContext t).1 in
  let t' := (startSpan name_ traceContext t).2 in
  (∃ span, activeSpans t' = <[tc_spanId c := span]> (activeSpans t)
           ∧ spanId span = tc_spanId c ∧ name span = name_
           ∧ attributes span = [] ∧ status span = None)
  ∧ pendingExports t' = pendingExports t
  ∧ exportTimer t' = exportTimer t
  ∧ timers t' = timers t
  ∧ requests t' = requests t
  ∧ now t' = now t
  ∧ config t' = config t.
Proof.
  unfold startSpan, generateTraceId, generateSpanId, generateId, getRandomValues.
  destruct (truthy_str (tc_traceId <$> traceContext)); simpl;
    (split; [eexists; split; [reflexivity | done] | done]).
Qed.

Lemma setSpanAttribute_fields id key value t :
  let t' := setSpanAttribute id key value t in
  pendingExports t' = pendingExports t
  ∧ exportTimer t' = exportTimer t
  ∧ timers t' = timers t
  ∧ requests t' = requests t
  ∧ now t' = now t
  ∧ config t' = config t.
Proof. unfold setSpanAttribute. by destruct (activeSpans t !! id). Qed.

Lemma setSpanStatus_fields id code message t :
  let t' := setSpanStatus id code message t in
  pendingExports t' = pendingExports t
  ∧ exportTimer t' = exportTimer t
  ∧ timers t' = timers t
  ∧ requests t' = requests t
  ∧ now t' = now t
  ∧ config t' = config t.
Proof. unfold setSpanStatus. by destruct (activeSpans t !! id). Qed.

(** ** The invariant of reachable tracers *)

Lemma keyed_insert t k s :
  keyed t → spanId s = k → keyed (set_activeSpans (λ m, <[k := s]> m) t).
Proof.
  intros Hk Hs k' s'. simpl. rewrite lookup_insert.
  case_decide; [intros [= <-]; congruence | apply Hk].
Qed.

Lemma clear_one_timer t h :
  one_timer t → exportTimer t = Some h → timers (clearTimeout h t) = [].
Proof.
  unfold one_timer, clearTimeout. simpl.
  destruct (timers t) as [|[h' d] [|e l]]; [done| |done].
  intros [Hh _] Ht. rewrite Hh in Ht. injection Ht as ->.
  rewrite filter_cons. simpl. case_decide; [done|]. done.
Qed.

Lemma no_timer_without_handle t :
  one_timer t → exportTimer t = None → timers t = [].
Proof.
  unfold one_timer. destruct (timers t) as [|[h' d] [|e l]]; [done| |done].
  intros [Hh _]. congruence.
Qed.

Lemma cancel_timer t :
  one_timer t →
  match exportTimer t with Some h => clearTimeout h t | None => t end
  = set_timers (λ _, []) t.
Proof.
  intros H. destruct (exportTimer t) as [h|] eqn:E.
  - pose proof (clear_one_timer t h H E) as Hc.
    unfold clearTimeout in *. simpl in Hc. unfold set_timers. by rewrite Hc.
  - pose proof (no_timer_without_handle t H E) as Hc.
    destruct t; simpl in *. by subst.
Qed.

Lemma scheduleExport_flush t :
  one_timer t → (10 ≤ length (pendingExports t))%nat →
  scheduleExport t = exportSpans (set_timers (λ _, []) t).
Proof.
  intros H Hlen. unfold scheduleExport. rewrite (cancel_timer t H). simpl.
  by rewrite bool_decide_eq_true_2.
Qed.

Lemma scheduleExport_arm t :
  one_timer t → (length (pendingExports t) < 10)%nat →
  scheduleExport t
  = set_exportTimer (Some (next_timer t))
      (set_next_timer S
         (set_timers (λ _, [(next_timer t, now t + 1000)]) t)).
Proof.
  intros H Hlen. unfold scheduleExport. rewrite (cancel_timer t H). simpl.
  rewrite bool_decide_eq_false_2 by lia. done.
Qed.

Lemma one_timer_push t span :
  one_timer t → one_timer (set_pendingExports (λ p, p ++ [span]) t).
Proof.
  unfold one_timer. simpl. destruct (timers t) as [|[h d] [|e l]]; [done| |done].
  intros [? ?]. split; [done|]. by destruct (pendingExports t).
Qed.

Lemma endSpan_active t id s :
  activeSpans t !! id = Some s →
  endSpan id t
  = scheduleExport
      (log "Span ended"
         (set_pendingExports (λ p, p ++ [with_endTime (now t * 1000000) s])
            (set_activeSpans (delete id) t))).
Proof. unfold endSpan. by intros ->. Qed.

Lemma endSpan_inactive t id : activeSpans t !! id = None → endSpan id t = t.
Proof. unfold endSpan. by intros ->. Qed.

Lemma set_timers_id f t : f (timers t) = timers t → set_timers f t = t.
Proof. intros H. unfold set_timers. rewrite H. by destruct t. Qed.

Lemma filter_none {A} (P : A → Prop) `{∀ x, Decision (P x)} (l : list A) :
  Forall (λ x, ¬ P x) l → filter P l = [].
Proof.
  induction 1 as [|x l Hx _ IH]; [done|]. by rewrite filter_cons_False.
Qed.

Lemma filter_all {A} (P : A → Prop) `{∀ x, Decision (P x)} (l : list A) :
  Forall P l → filter P l = l.
Proof.
  induction 1 as [|x l Hx _ IH]; [done|]. rewrite filter_cons_True by done.
  by rewrite IH.
Qed.

Lemma advance_idle t dt :
  Forall (λ e, now t + Z.max 0 dt < e.2) (timers t) →
  advance dt t = set_now (λ n, n + Z.max 0 dt) t.
Proof.
  intros H. unfold advance, fire_due.
  set (u := set_now _ t).
  rewrite filter_none; [simpl; apply set_timers_id, filter_all|];
    simpl; (eapply Forall_impl; [exact H|]); simpl; intros e ?; lia.
Qed.

Lemma advance_fire t dt h d :
  timers t = [(h, d)] → d ≤ now t + Z.max 0 dt →
  advance dt t
  = exportSpans (set_timers (λ _, []) (set_now (λ n, n + Z.max 0 dt) t)).
Proof.
  intros E Hd. unfold advance, fire_due.
  set (u := set_now _ t).
  assert (timers u = [(h, d)]) as Eu by done.
  rewrite Eu, filter_all by (repeat constructor; simpl; lia). simpl.
  f_equal. unfold set_timers. rewrite Eu.
  rewrite filter_none by (repeat constructor; simpl; lia). done.
Qed.

Lemma tracer_inv_step op t : tracer_inv t → tracer_inv (step op t).
Proof.
  intros (Hk & Ht & Hb). destruct op as [n c|id k v|id code m|id| |dt|o]; simpl.
  - pose proof (startSpan_fields n c t) as ((sp & Ha & Hid & _) & Hp & He & Hti & _).
    simpl in *. split; [|split].
    + intros k s. rewrite Ha, lookup_insert. case_decide; [intros [= <-]; congruence | apply Hk].
    + unfold one_timer. by rewrite Hti, He, Hp.
    + unfold below_threshold. by rewrite Hp.
  - unfold tracer_inv, one_timer, below_threshold, setSpanAttribute.
    destruct (activeSpans t !! id) as [s|] eqn:E; [|done]. simpl.
    split; [|done]. apply keyed_insert; [done|]. simpl. by apply Hk.
  - unfold tracer_inv, one_timer, below_threshold, setSpanStatus.
    destruct (activeSpans t !! id) as [s|] eqn:E; [|done]. simpl.
    split; [|done]. apply keyed_insert; [done|]. simpl. by apply Hk.
  - destruct (activeSpans t !! id) as [s|] eqn:E;
      [rewrite (endSpan_active t id s E) | by rewrite (endSpan_inactive t id E)].
    set (t3 := log _ _).
    assert (one_timer t3) as Ht3.
    { unfold t3, one_timer. simpl. revert Ht. unfold one_timer.
      destruct (timers t) as [|[h d] [|e l]]; [done| |done].
      intros [? ?]. split; [done|]. by destruct (pendingExports t). }
    assert (keyed t3) as Hk3.
    { intros k' s'. unfold t3. simpl. rewrite lookup_delete.
      case_decide; [done|apply Hk]. }
    destruct (decide (10 ≤ length (pendingExports t3))%nat) as [Hl|Hl].
    + rewrite scheduleExport_flush by done.
      pose proof (exportSpans_fields (set_timers (λ _, []) t3)) as (Ha & Hp & He & Hti & _).
      split; [|split].
      * unfold keyed. rewrite Ha. apply Hk3.
      * unfold one_timer. by rewrite Hti.
      * unfold below_threshold. rewrite Hp. simpl. lia.
    + rewrite scheduleExport_arm by (done || lia).
      split; [|split].
      * apply Hk3.
      * unfold one_timer. simpl. split; [done|]. by destruct (pendingExports t).
      * unfold below_threshold. simpl. unfold t3 in Hl. simpl in Hl. lia.
  - unfold flush. rewrite cancel_timer by done.
    pose proof (exportSpans_fields (set_timers (λ _, []) t)) as (Ha & Hp & He & Hti & _).
    split; [|split].
    + unfold keyed. rewrite Ha. apply Hk.
    + unfold one_timer. by rewrite Hti.
    + unfold below_threshold. rewrite Hp. simpl. lia.
  - pose proof Ht as Ht'. unfold one_timer in Ht'.
    destruct (timers t) as [|[h d] [|e l]] eqn:Eti; [| |done].
    + rewrite advance_idle by (rewrite Eti; constructor).
      split; [done|]. split; [|done]. unfold one_timer. simpl. by rewrite Eti.
    + destruct (decide (d ≤ now t + Z.max 0 dt)) as [Hd|Hd].
      * rewrite (advance_fire t dt h d) by done.
        match goal with |- tracer_inv (exportSpans ?u) =>
          pose proof (exportSpans_fields u) as (Ha & Hp' & He' & Hti & _) end.
        split; [|split].
        -- unfold keyed. rewrite Ha. apply Hk.
        -- unfold one_timer. by rewrite Hti.
        -- unfold below_threshold. rewrite Hp'. simpl. lia.
      * rewrite advance_idle by (rewrite Eti; repeat constructor; simpl; lia).
        split; [done|]. split; [|done]. unfold one_timer. simpl. by rewrite Eti.
  - unfold exportSpans_resume. destruct (inflight t); [done|].
    destruct o as [e|[x|]|[x|]]; done.
Qed.

Lemma tracer_inv_new cfg clock tape : tracer_inv (new_Tracer cfg clock tape).
Proof. split; [|split]; [done|done|]. unfold below_threshold. simpl. lia. Qed.

Lemma tracer_inv_run ops t : tracer_inv t → tracer_inv (run ops t).
Proof.
  revert t. induction ops as [|op ops IH]; intros t H; [done|].
  simpl. apply IH. by apply tracer_inv_step.
Qed.

Lemma reachable_inv t : reachable t → tracer_inv t.
Proof.
  intros (cfg & clock & tape & ops & ->). apply tracer_inv_run, tracer_inv_new.
Qed.

(** ** Opening and closing spans *)

Lemma scheduleExport_fields t :
  activeSpans (scheduleExport t) = activeSpans t
  ∧ closedSpans (scheduleExport t) = closedSpans t
  ∧ now (scheduleExport t) = now t
  ∧ config (scheduleExport t) = config t.
Proof.
  unfold scheduleExport.
  set (t1 := match exportTimer t with Some h => clearTimeout h t | None => t end).
  assert (activeSpans t1 = activeSpans t ∧ closedSpans t1 = closedSpans t
          ∧ now t1 = now t ∧ config t1 = config t) as (Ha & Hc & Hn & Hf).
  { unfold t1. by destruct (exportTimer t). }
  case_bool_decide.
  - pose proof (exportSpans_fields t1) as (? & _ & _ & _ & ? & ? & ?).
    repeat split; congruence.
  - done.
Qed.

Lemma endSpan_closes t id s :
  activeSpans t !! id = Some s →
  activeSpans (endSpan id t) = delete id (activeSpans t)
  ∧ closedSpans (endSpan id t)
    = closedSpans t ++ [with_endTime (now t * 1000000) s]
  ∧ now (endSpan id t) = now t
  ∧ config (endSpan id t) = config t.
Proof.
  intros E. rewrite (endSpan_active t id s E).
  match goal with |- context [scheduleExport ?u] =>
    pose proof (scheduleExport_fields u) as (-> & -> & -> & ->) end.
  unfold closedSpans. simpl. by rewrite app_assoc.
Qed.

Lemma startSpan_active name_ traceContext t :
  ∃ span,
    activeSpans (startSpan name_ traceContext t).2
    = <[tc_spanId (startSpan name_ traceContext t).1 := span]> (activeSpans t).
Proof.
  destruct (startSpan_fields name_ traceContext t) as ((sp & Ha & _) & _).
  by exists sp.
Qed.

Lemma startSpans_keeps calls t k :
  is_Some (activeSpans t !! k) →
  is_Some (activeSpans (startSpans calls t).2 !! k).
Proof.
  revert t. induction calls as [|[n c] calls IH]; intros t Hk; [done|].
  simpl. destruct (startSpan n c t) as [c1 t1] eqn:E1.
  specialize (IH t1).
  destruct (startSpans calls t1) as [cs t2] eqn:E2. simpl in *. apply IH.
  destruct (startSpan_active n c t) as (sp & Ha). rewrite E1 in Ha. simpl in Ha.
  rewrite Ha, lookup_insert. by case_decide.
Qed.

Lemma startSpans_started calls t c :
  c ∈ (startSpans calls t).1 →
  is_Some (activeSpans (startSpans calls t).2 !! tc_spanId c).
Proof.
  revert t. induction calls as [|[n tc] calls IH]; intros t; simpl.
  { by intros ?%elem_of_nil. }
  destruct (startSpan n tc t) as [c1 t1] eqn:E1.
  pose proof (IH t1) as IH1. pose proof (startSpans_keeps calls t1) as Hkeep.
  destruct (startSpans calls t1) as [cs t2] eqn:E2. simpl in *.
  intros [->|Hin]%elem_of_cons; [|by apply IH1].
  apply Hkeep.
  destruct (startSpan_active n tc t) as (sp & Ha). rewrite E1 in Ha. simpl in Ha.
  by rewrite Ha, lookup_insert_eq.
Qed.

Lemma startSpans_count calls t :
  NoDup (tc_spanId <$> (startSpans calls t).1) →
  Forall (λ c, activeSpans t !! tc_spanId c = None) (startSpans calls t).1 →
  size (activeSpans (startSpans calls t).2)
  = (size (activeSpans t) + length calls)%nat.
Proof.
  revert t. induction calls as [|[n tc] calls IH]; intros t; simpl.
  { intros _ _. lia. }
  destruct (startSpan n tc t) as [c1 t1] eqn:E1.
  pose proof (IH t1) as IH1.
  destruct (startSpans calls t1) as [cs t2] eqn:E2. simpl in *.
  intros [Hnotin Hnd]%NoDup_cons [Hc1 Hfresh]%Forall_cons.
  destruct (startSpan_active n tc t) as (sp & Ha). rewrite E1 in Ha. simpl in Ha.
  rewrite IH1; [| done |].
  - rewrite Ha, map_size_insert_None; [lia | done].
  - rewrite Forall_forall in Hfresh. apply Forall_forall. intros c Hc.
    rewrite Ha, lookup_insert_ne; [by apply Hfresh|].
    intros Heq. apply Hnotin. rewrite Heq. apply list_elem_of_fmap. by exists c.
Qed.

(** C5 as stated fails: when the random source repeats a span id, two
    [startSpan] calls leave one active span. *)
Lemma startSpan_count_collision :
  let calls := [("a", None); ("b", None)] in
  size (activeSpans (startSpans calls (new_Tracer demo_config 0 stuck_tape)).2)
  ≠ length calls.
Proof. vm_compute. discriminate. Qed.

(** C5, amended. [N] calls of [startSpan] whose generated span ids are
    pairwise distinct and not active before raise the active-span count
    by [N].  Closing one of them removes its id from the active set and
    appends that span, stamped with its end time, to the closed spans
    exactly once; closing it again changes nothing at all. *)
Theorem startSpan_endSpan_bookkeeping t calls id :
  let started := (startSpans calls t).1 in
  let t1 := (startSpans calls t).2 in
  NoDup (tc_spanId <$> started) →
  Forall (λ c, activeSpans t !! tc_spanId c = None) started →
  id ∈ (tc_spanId <$> started) →
  size (activeSpans t1) = (size (activeSpans t) + length calls)%nat
  ∧ ∃ s, activeSpans t1 !! id = Some s
      ∧ activeSpans (endSpan id t1) !! id = None
      ∧ closedSpans (endSpan id t1)
        = closedSpans t1 ++ [with_endTime (now t1 * 1000000) s]
      ∧ endSpan id (endSpan id t1) = endSpan id t1.
Proof.
  intros started t1 Hnd Hfresh Hid.
  split; [by apply startSpans_count|].
  apply list_elem_of_fmap in Hid as (c & -> & Hc).
  destruct (startSpans_started calls t c Hc) as [s Hs]. fold t1 in Hs.
  exists s. split; [done|].
  destruct (endSpan_closes t1 (tc_spanId c) s Hs) as (Ha & Hcl & _).
  assert (activeSpans (endSpan (tc_spanId c) t1) !! tc_spanId c = None) as Hgone
    by (rewrite Ha; apply lookup_delete_eq).
  split; [done|]. split; [done|]. by apply endSpan_inactive.
Qed.

(** A worked instance: two spans opened on the counting tape, the second
    one closed twice. *)
Lemma startSpan_endSpan_bookkeeping_witness :
  let calls := [("a", None); ("b", None)] in
  let t1 := (startSpans calls demo_tracer).2 in
  size (activeSpans t1) = (size (activeSpans demo_tracer) + length calls)%nat
  ∧ ∃ s, activeSpans t1 !! "28292a2b2c2d2e2f" = Some s
      ∧ activeSpans (endSpan "28292a2b2c2d2e2f" t1) !! "28292a2b2c2d2e2f" = None
      ∧ closedSpans (endSpan "28292a2b2c2d2e2f" t1)
        = closedSpans t1 ++ [with_endTime (now t1 * 1000000) s]
      ∧ endSpan "28292a2b2c2d2e2f" (endSpan "28292a2b2c2d2e2f" t1)
        = endSpan "28292a2b2c2d2e2f" t1.
Proof.
  apply (startSpan_endSpan_bookkeeping demo_tracer [("a", None); ("b", None)]
           "28292a2b2c2d2e2f").
  - by_compute.
  - by_compute.
  - by_compute.
Defined.

(** ** Attributes of active and closed spans *)

Lemma fired_fields (due : list (nat * Z)) t :
  let t' := foldl (λ acc _, exportSpans acc) t due in
  activeSpans t' = activeSpans t ∧ closedSpans t' = closedSpans t
  ∧ now t' = now t ∧ config t' = config t.
Proof.
  revert t. induction due as [|e due IH]; intros t; [done|]. simpl.
  destruct (IH (exportSpans t)) as (-> & -> & -> & ->).
  by destruct (exportSpans_fields t) as (? & _ & _ & _ & ? & ? & ?).
Qed.

Lemma advance_fields dt t :
  activeSpans (advance dt t) = activeSpans t
  ∧ closedSpans (advance dt t) = closedSpans t
  ∧ now (advance dt t) = now t + Z.max 0 dt
  ∧ config (advance dt t) = config t.
Proof.
  unfold advance, fire_due.
  match goal with |- context [foldl _ ?u ?l] =>
    destruct (fired_fields l u) as (-> & -> & -> & ->) end.
  done.
Qed.

Lemma flush_fields t :
  activeSpans (flush t) = activeSpans t
  ∧ closedSpans (flush t) = closedSpans t
  ∧ now (flush t) = now t
  ∧ config (flush t) = config t.
Proof.
  unfold flush.
  match goal with |- context [exportSpans ?u] =>
    destruct (exportSpans_fields u) as (-> & _ & _ & _ & -> & -> & ->) end.
  by destruct (exportTimer t).
Qed.

Lemma exportSpans_resume_fields o t :
  activeSpans (exportSpans_resume o t) = activeSpans t
  ∧ pendingExports (exportSpans_resume o t) = pendingExports t
  ∧ requests (exportSpans_resume o t) = requests t
  ∧ timers (exportSpans_resume o t) = timers t
  ∧ exportTimer (exportSpans_resume o t) = exportTimer t
  ∧ now (exportSpans_resume o t) = now t
  ∧ config (exportSpans_resume o t) = config t.
Proof.
  unfold exportSpans_resume. destruct (inflight t); [done|].
  by destruct o as [e|[x|]|[x|]].
Qed.

Lemma endSpan_gone id t : activeSpans (endSpan id t) !! id = None.
Proof.
  destruct (activeSpans t !! id) as [s|] eqn:E.
  - destruct (endSpan_closes t id s E) as (-> & _). apply lookup_delete_eq.
  - by rewrite endSpan_inactive.
Qed.

Lemma closedSpans_step op t : closedSpans t `prefix_of` closedSpans (step op t).
Proof.
  destruct op as [n c|id k v|id code m|id| |dt|o]; simpl.
  - destruct (startSpan_fields n c t) as (_ & Hp & _ & _ & Hr & _).
    simpl in *. unfold closedSpans. by rewrite Hp, Hr.
  - destruct (setSpanAttribute_fields id k v t) as (Hp & _ & _ & Hr & _).
    simpl in *. unfold closedSpans. by rewrite Hp, Hr.
  - destruct (setSpanStatus_fields id code m t) as (Hp & _ & _ & Hr & _).
    simpl in *. unfold closedSpans. by rewrite Hp, Hr.
  - destruct (activeSpans t !! id) as [s|] eqn:E.
    + destruct (endSpan_closes t id s E) as (_ & -> & _). by apply prefix_app_r.
    + by rewrite endSpan_inactive.
  - by destruct (flush_fields t) as (_ & -> & _).
  - by destruct (advance_fields dt t) as (_ & -> & _).
  - destruct (exportSpans_resume_fields o t) as (_ & Hp & Hr & _).
    unfold closedSpans. by rewrite Hp, Hr.
Qed.

Lemma attributes_step op t id s s' :
  activeSpans t !! id = Some s →
  activeSpans (step op t) !! id = Some s' →
  (∀ n c, op = op_startSpan n c → tc_spanId (startSpan n c t).1 ≠ id) →
  attributes s `prefix_of` attributes s'.
Proof.
  intros Hs Hs' Hnew.
  destruct op as [n c|id' k v|id' code m|id'| |dt|o]; simpl in Hs'.
  - destruct (startSpan_active n c t) as (sp & Ha).
    rewrite Ha, lookup_insert_ne in Hs' by (by eapply Hnew).
    by simplify_eq.
  - unfold setSpanAttribute in Hs'.
    destruct (activeSpans t !! id') as [s0|] eqn:E; [|by simplify_eq].
    simpl in Hs'. rewrite lookup_insert in Hs'. case_decide; simplify_eq; [|done].
    simpl. by apply prefix_app_r.
  - unfold setSpanStatus in Hs'.
    destruct (activeSpans t !! id') as [s0|] eqn:E; [|by simplify_eq].
    simpl in Hs'. rewrite lookup_insert in Hs'. by case_decide; simplify_eq.
  - destruct (activeSpans t !! id') as [s0|] eqn:E.
    + destruct (endSpan_closes t id' s0 E) as (Ha & _).
      rewrite Ha, lookup_delete in Hs'. by case_decide; simplify_eq.
    + rewrite endSpan_inactive in Hs' by done. by simplify_eq.
  - destruct (flush_fields t) as (Ha & _). rewrite Ha in Hs'. by simplify_eq.
  - destruct (advance_fields dt t) as (Ha & _). rewrite Ha in Hs'. by simplify_eq.
  - destruct (exportSpans_resume_fields o t) as (Ha & _). rewrite Ha in Hs'.
    by simplify_eq.
Qed.

(** C9. [setSpanAttribute(spanId, key, value)] appends
    [(key, encodeValue(value))] to the attribute list of the span filed
    under [spanId] when there is one, and returns the state untouched
    when there is none, in particular right after [endSpan(spanId)].
    Whatever happens next, the closed spans stay as they are (the
    history of closed spans only gets longer), and as long as the same
    span stays registered its attribute list only gets longer. *)
Theorem setSpanAttribute_appends_or_drops t id key value :
  (∀ s, activeSpans t !! id = Some s →
     setSpanAttribute id key value t
     = set_activeSpans
         (λ m, <[id := push_attribute key (encodeValue value) s]> m) t
     ∧ activeSpans (setSpanAttribute id key value t) !! id
       = Some (push_attribute key (encodeValue value) s)
     ∧ attributes (push_attribute key (encodeValue value) s)
       = attributes s ++ [(key, encodeValue value)])
  ∧ (activeSpans t !! id = None → setSpanAttribute id key value t = t)
  ∧ setSpanAttribute id key value (endSpan id t) = endSpan id t
  ∧ (∀ op, closedSpans t `prefix_of` closedSpans (step op t))
  ∧ (∀ op s s',
       activeSpans t !! id = Some s →
       activeSpans (step op t) !! id = Some s' →
       (∀ n c, op = op_startSpan n c → tc_spanId (startSpan n c t).1 ≠ id) →
       attributes s `prefix_of` attributes s').
Proof.
  split; [|split; [|split; [|split]]].
  - intros s Hs. unfold setSpanAttribute. rewrite Hs. simpl.
    split; [done|]. split; [apply lookup_insert_eq | done].
  - unfold setSpanAttribute. by intros ->.
  - unfold setSpanAttribute. by rewrite endSpan_gone.
  - intros op. apply closedSpans_step.
  - intros op s s'. apply attributes_step.
Qed.

(** A worked instance: one attribute set on an open span and on an
    unknown id. *)
Lemma setSpanAttribute_appends_or_drops_witness :
  let t := (startSpan "openai.embeddings.create" None demo_tracer).2 in
  (∃ s, activeSpans t !! "1011121314151617" = Some s
        ∧ activeSpans
            (setSpanAttribute "1011121314151617" "ai.model" (JString "gpt-4") t)
          !! "1011121314151617"
          = Some (push_attribute "ai.model" (stringValue "gpt-4") s))
  ∧ setSpanAttribute "ffffffffffffffff" "ai.model" (JString "gpt-4") t = t.
Proof.
  intros t.
  destruct (setSpanAttribute_appends_or_drops t "1011121314151617" "ai.model"
              (JString "gpt-4")) as (Hactive & _).
  destruct (setSpanAttribute_appends_or_drops t "ffffffffffffffff" "ai.model"
              (JString "gpt-4")) as (_ & Hunknown & _).
  split.
  - eexists. split; [vm_compute; reflexivity|].
    refine (proj1 (proj2 (Hactive _ _))). vm_compute. reflexivity.
  - apply Hunknown. vm_compute. reflexivity.
Defined.

(** ** Flushing *)

Lemma exportSpans_nonempty t :
  pendingExports t ≠ [] →
  exportSpans t
  = set_inflight S
      (set_requests (λ r, r ++ [export_request (config t) (pendingExports t)])
         (log "Exporting spans" (set_pendingExports (λ _, []) t))).
Proof. unfold exportSpans. by destruct (pendingExports t). Qed.

(** C7. On a reachable tracer [flush()] with nothing pending changes
    nothing.  With spans pending it empties the pending sequence, issues
    exactly one request whose payload holds exactly those spans, in
    order, and leaves no
    timeout armed; when that send fails, the failure is written to the
    console and the batch is gone: nothing is put back, no further
    request is issued and no timeout is armed. *)
Theorem flush_takes_batch_once t o :
  reachable t →
  (pendingExports t = [] → flush t = t)
  ∧ (pendingExports t ≠ [] →
     pendingExports (flush t) = []
     ∧ (∃ r, requests (flush t) = requests t ++ [r]
           ∧ spans (body r) = pendingExports t
           ∧ r = export_request (config t) (pendingExports t))
     ∧ timers (flush t) = []
     ∧ (send_failed o = true →
        let t' := exportSpans_resume o (flush t) in
        pendingExports t' = []
        ∧ requests t' = requests (flush t)
        ∧ timers t' = []
        ∧ activeSpans t' = activeSpans t
        ∧ ∃ message detail,
            console t' = console (flush t) ++ [console_error message detail])).
Proof.
  intros (Hk & Ht & Hb)%reachable_inv.
  unfold flush. rewrite cancel_timer by done. split.
  - intros Hp. rewrite exportSpans_empty by done.
    apply set_timers_id. unfold one_timer in Ht.
    by destruct (timers t) as [|[h d] [|e l]]; [| destruct Ht |].
  - intros Hp. rewrite exportSpans_nonempty by done. simpl.
    split; [done|]. split; [by eexists|].
    repeat split; try done.
    all: destruct o as [e|[x|]|[x|]]; try done; simpl; eauto.
Qed.

(** A worked instance: one pending span is flushed and the send is
    refused. *)
Lemma flush_takes_batch_once_witness :
  pendingExports (flush one_ended) = []
  ∧ (∃ r, requests (flush one_ended) = [r]
        ∧ spans (body r) = pendingExports one_ended
        ∧ spanId <$> spans (body r) = ["1011121314151617"])
  ∧ pendingExports
      (exportSpans_resume (fetch_rejects "ECONNREFUSED") (flush one_ended)) = []
  ∧ requests
      (exportSpans_resume (fetch_rejects "ECONNREFUSED") (flush one_ended))
    = requests (flush one_ended).
Proof.
  assert (reachable one_ended) as Hr.
  { exists demo_config, 1700000000000, counting_tape.
    by exists [op_startSpan "openai.embeddings.create" None;
               op_endSpan "1011121314151617"]. }
  assert (pendingExports one_ended ≠ []) as Hp by (vm_compute; discriminate).
  destruct (flush_takes_batch_once one_ended (fetch_rejects "ECONNREFUSED") Hr)
    as (_ & Hflush).
  destruct (Hflush Hp) as (H1 & (r & H2 & Hspans & _) & _ & Hfail).
  destruct (Hfail eq_refl) as (H3 & H4 & _).
  split; [exact H1|]. split; [|split; [exact H3 | exact H4]].
  exists r. split; [exact H2|]. split; [exact Hspans|].
  rewrite Hspans. vm_compute. reflexivity.
Defined.

(** ** The flush policy *)

Lemma endSpan_arm t id s :
  tracer_inv t → activeSpans t !! id = Some s →
  (S (length (pendingExports t)) < 10)%nat →
  endSpan id t
  = set_exportTimer (Some (next_timer t))
      (set_next_timer S
         (set_timers (λ _, [(next_timer t, now t + 1000)])
            (log "Span ended"
               (set_pendingExports
                  (λ p, p ++ [with_endTime (now t * 1000000) s])
                  (set_activeSpans (delete id) t))))).
Proof.
  intros (Hk & Ht & Hb) E Hlen. rewrite (endSpan_active t id s E).
  rewrite scheduleExport_arm; [done| |].
  - exact (one_timer_push t _ Ht).
  - simpl. rewrite length_app. simpl. lia.
Qed.

Lemma endSpan_flush t id s :
  tracer_inv t → activeSpans t !! id = Some s →
  (10 ≤ S (length (pendingExports t)))%nat →
  endSpan id t
  = exportSpans
      (set_timers (λ _, [])
         (log "Span ended"
            (set_pendingExports
               (λ p, p ++ [with_endTime (now t * 1000000) s])
               (set_activeSpans (delete id) t)))).
Proof.
  intros (Hk & Ht & Hb) E Hlen. rewrite (endSpan_active t id s E).
  rewrite scheduleExport_flush; [done| |].
  - exact (one_timer_push t _ Ht).
  - simpl. rewrite length_app. simpl. lia.
Qed.

Lemma trickle_debounce appends u h :
  tracer_inv u →
  timers u = [(h, now u + 1000)] →
  Forall (λ a, a.1 < 1000) appends →
  NoDup (appends.*2) →
  Forall (λ a, is_Some (activeSpans u !! a.2)) appends →
  (length (pendingExports u) + length appends < 10)%nat →
  requests (trickle appends u) = requests u
  ∧ length (pendingExports (trickle appends u))
    = (length (pendingExports u) + length appends)%nat
  ∧ ∃ h', timers (trickle appends u) = [(h', now (trickle appends u) + 1000)].
Proof.
  revert u h. induction appends as [|[dt id] appends IH]; intros u h Hinv Htm Hdt Hnd Hact Hlen.
  { simpl. split; [done|]. split; [lia|]. by exists h. }
  simpl in *.
  apply Forall_cons in Hdt as [Hdt Hdts]. apply NoDup_cons in Hnd as [Hnotin Hnd].
  apply Forall_cons in Hact as [[s Hs] Hacts]. simpl in *.
  assert (advance dt u = set_now (λ n, n + Z.max 0 dt) u) as Hadv.
  { apply advance_idle. rewrite Htm. repeat constructor. simpl. lia. }
  pose proof (tracer_inv_step (op_advance dt) u Hinv) as Hinv1. simpl in Hinv1.
  rewrite Hadv in *. set (u1 := set_now _ u) in *.
  pose proof (tracer_inv_step (op_endSpan id) u1 Hinv1) as Hinv2. simpl in Hinv2.
  assert (activeSpans u1 !! id = Some s) as Hs1 by done.
  rewrite (endSpan_arm u1 id s) in * by (done || (simpl; lia)).
  set (u2 := set_exportTimer _ _) in *.
  destruct (IH u2 (next_timer u1)) as (Hr & Hl & Ht); try done.
  - apply Forall_forall. intros a Ha. unfold u2. simpl. rewrite lookup_delete_ne.
    + rewrite Forall_forall in Hacts. by apply Hacts.
    + intros ->. apply Hnotin. apply list_elem_of_fmap. by exists a.
  - unfold u2. simpl. rewrite length_app. simpl. lia.
  - split; [by rewrite Hr|]. split; [|done].
    rewrite Hl. unfold u2. simpl. rewrite length_app. simpl. lia.
Qed.

(** C3. Closing a span on a reachable tracer appends it to the pending
    sequence.  If that makes ten, no timeout stays armed, and one
    request whose payload holds the whole buffer, in order, is issued at
    once.  Otherwise the
    only armed timeout is a new one due 1000 ms from now; further
    appends that each come less than 1000 ms after the previous one and
    stay below ten never cause a request and re-arm the timeout from
    the latest append; once 1000 ms pass without an append, the timeout
    fires and the buffer goes out as the spans of one request. *)
Theorem append_flushes_or_debounces t id s :
  reachable t →
  activeSpans t !! id = Some s →
  let batch := pendingExports t ++ [with_endTime (now t * 1000000) s] in
  let t' := endSpan id t in
  ((10 ≤ length batch)%nat →
     timers t' = [] ∧ pendingExports t' = []
     ∧ ∃ r, requests t' = requests t ++ [r]
          ∧ spans (body r) = batch
          ∧ r = export_request (config t) batch)
  ∧ ((length batch < 10)%nat →
     timers t' = [(next_timer t, now t + 1000)]
     ∧ exportTimer t' = Some (next_timer t)
     ∧ pendingExports t' = batch
     ∧ requests t' = requests t
     ∧ (∀ appends,
          Forall (λ a, a.1 < 1000) appends →
          NoDup (appends.*2) →
          Forall (λ a, is_Some (activeSpans t' !! a.2)) appends →
          (length batch + length appends < 10)%nat →
          requests (trickle appends t') = requests t
          ∧ length (pendingExports (trickle appends t'))
            = (length batch + length appends)%nat
          ∧ ∃ h, timers (trickle appends t')
                 = [(h, now (trickle appends t') + 1000)])
     ∧ (∀ dt, 1000 ≤ dt →
          timers (advance dt t') = [] ∧ pendingExports (advance dt t') = []
          ∧ ∃ r, requests (advance dt t') = requests t ++ [r]
               ∧ spans (body r) = batch
               ∧ r = export_request (config t) batch)).
Proof.
  intros Hreach Hs batch t'.
  pose proof (reachable_inv t Hreach) as Hinv.
  pose proof (tracer_inv_step (op_endSpan id) t Hinv) as Hinv'. simpl in Hinv'.
  fold t' in Hinv'.
  assert (length batch = S (length (pendingExports t))) as Hlen
    by (unfold batch; rewrite length_app; simpl; lia).
  split; intros Hb.
  - unfold t' in *. rewrite (endSpan_flush t id s) by (done || lia).
    rewrite exportSpans_nonempty by (simpl; by destruct (pendingExports t)).
    split; [done|]. split; [done|]. by eexists.
  - assert (t' = set_exportTimer (Some (next_timer t))
                   (set_next_timer S
                      (set_timers (λ _, [(next_timer t, now t + 1000)])
                         (log "Span ended"
                            (set_pendingExports
                               (λ p, p ++ [with_endTime (now t * 1000000) s])
                               (set_activeSpans (delete id) t)))))) as Ht'
      by (apply endSpan_arm; done || lia).
    assert (timers t' = [(next_timer t, now t' + 1000)]) as Htm by (by rewrite Ht').
    assert (pendingExports t' = batch) as Hp by (by rewrite Ht').
    assert (requests t' = requests t) as Hr by (by rewrite Ht').
    split; [by rewrite Ht'|]. split; [by rewrite Ht'|].
    split; [done|]. split; [done|]. split.
    + intros appends Hdt Hnd Hact Hroom.
      destruct (trickle_debounce appends t' (next_timer t)) as (H1 & H2 & H3);
        try done.
      * rewrite Hp. lia.
      * split; [by rewrite H1|]. split; [by rewrite H2, Hp | done].
    + intros dt Hdt.
      rewrite (advance_fire t' dt (next_timer t) (now t' + 1000)) by (done || lia).
      rewrite exportSpans_nonempty
        by (simpl; rewrite Hp; unfold batch; by destruct (pendingExports t)).
      simpl. rewrite Hp, Hr. split; [done|]. split; [done|].
      eexists. split; [done|]. split; [done|]. by rewrite Ht'.
Qed.

(** Worked instances: the tenth append flushes at once; after a first
    append, two more within a second each send nothing, and a full
    second of silence sends the batch. *)
Lemma append_flushes_or_debounces_witness :
  (timers (endSpan "e8e9eaebecedeeef" nine_pending) = []
   ∧ pendingExports (endSpan "e8e9eaebecedeeef" nine_pending) = []
   ∧ ∃ r, requests (endSpan "e8e9eaebecedeeef" nine_pending) = [r]
        ∧ spanId <$> spans (body r) = ten_ids)
  ∧ requests (trickle [(999, "28292a2b2c2d2e2f"); (500, "4041424344454647")]
                (endSpan "1011121314151617" three_open)) = []
  ∧ ∃ r, requests (advance 1000 (endSpan "1011121314151617" three_open)) = [r]
       ∧ spanId <$> spans (body r) = ["1011121314151617"].
Proof.
  split.
  - assert (reachable nine_pending) as Hr.
    { exists demo_config, 1700000000000, counting_tape. by eexists. }
    assert (is_Some (activeSpans nine_pending !! "e8e9eaebecedeeef")) as [s Hs]
      by by_compute.
    destruct (append_flushes_or_debounces nine_pending "e8e9eaebecedeeef" s Hr Hs)
      as (Hfull & _).
    destruct Hfull as (H1 & H2 & r & H3 & H4 & _).
    + rewrite length_app. vm_compute. lia.
    + split; [exact H1|]. split; [exact H2|]. exists r.
      split; [exact H3|]. rewrite H4.
      assert (activeSpans nine_pending !! "e8e9eaebecedeeef" = Some s → 
              spanId s = "e8e9eaebecedeeef") as Hid
        by (vm_compute; by intros [= <-]).
      rewrite fmap_app. cbn [fmap list_fmap with_endTime spanId].
      rewrite (Hid Hs). vm_compute. reflexivity.
  - assert (reachable three_open) as Hr.
    { exists demo_config, 1700000000000, counting_tape. by eexists. }
    assert (is_Some (activeSpans three_open !! "1011121314151617")) as [s Hs]
      by by_compute.
    destruct (append_flushes_or_debounces three_open "1011121314151617" s Hr Hs)
      as (_ & Hsub).
    destruct Hsub as (_ & _ & _ & _ & Htrickle & Hfire).
    + rewrite length_app. vm_compute. lia.
    + split.
      * destruct (Htrickle [(999, "28292a2b2c2d2e2f"); (500, "4041424344454647")])
          as (H1 & _).
        -- by_compute.
        -- by_compute.
        -- by_compute.
        -- rewrite length_app. vm_compute. lia.
        -- rewrite H1. vm_compute. reflexivity.
      * destruct (Hfire 1000) as (_ & _ & r & H3 & H4 & _); [lia|].
        exists r. split; [exact H3|]. rewrite H4.
        assert (activeSpans three_open !! "1011121314151617" = Some s →
                spanId s = "1011121314151617") as Hid
          by (vm_compute; by intros [= <-]).
        rewrite fmap_app. cbn [fmap list_fmap with_endTime spanId].
        rewrite (Hid Hs). vm_compute. reflexivity.
Defined.

(** ** One instrumented call, followed through the tracer *)

Lemma push_all_fields l s :
  attributes (push_all l s) = attributes s ++ encoded l
  ∧ name (push_all l s) = name s
  ∧ status (push_all l s) = status s
  ∧ spanId (push_all l s) = spanId s
  ∧ endTimeUnixNano (push_all l s) = endTimeUnixNano s.
Proof.
  revert s. induction l as [|kv l IH]; intros s; simpl.
  - by rewrite app_nil_r.
  - destruct (IH (push_attribute kv.1 (encodeValue kv.2) s)) as (-> & -> & -> & -> & ->).
    simpl. by rewrite <- app_assoc.
Qed.

(** How each tracer call made by [instrument] moves the span filed under
    one id. *)
Section Tracked.
Variable id : string.

Lemma at_attr s c n t key value :
  at_ id s c n t →
  at_ id (push_attribute key (encodeValue value) s) c n
    (setSpanAttribute id key value t).
Proof.
  intros (Hs & Hc & Hn). unfold at_, setSpanAttribute. rewrite Hs.
  split; [simpl; apply lookup_insert_eq | done].
Qed.

Lemma at_attrs s c n t l :
  at_ id s c n t → at_ id (push_all l s) c n (setSpanAttributes id l t).
Proof.
  revert s t. induction l as [|kv l IH]; intros s t H; [done|].
  simpl. apply IH. by apply at_attr.
Qed.

Lemma at_status s c n t code message :
  at_ id s c n t →
  at_ id (with_status code message s) c n (setSpanStatus id code message t).
Proof.
  intros (Hs & Hc & Hn). unfold at_, setSpanStatus. rewrite Hs.
  split; [simpl; apply lookup_insert_eq | done].
Qed.

Lemma at_advance s c n t dt :
  at_ id s c n t → at_ id s c (n + Z.max 0 dt) (advance dt t).
Proof.
  intros (Hs & Hc & Hn). unfold at_.
  destruct (advance_fields dt t) as (-> & -> & -> & _). by rewrite Hn.
Qed.

Lemma at_end s c n t :
  at_ id s c n t →
  closedSpans (endSpan id t) = c ++ [with_endTime (n * 1000000) s]
  ∧ activeSpans (endSpan id t) !! id = None.
Proof.
  intros (Hs & <- & <-).
  destruct (endSpan_closes t id s Hs) as (_ & -> & _).
  split; [done | apply endSpan_gone].
Qed.

End Tracked.

Lemma at_start name_ t :
  ∃ s, at_ (tc_spanId (startSpan name_ None t).1) s (closedSpans t) (now t)
         (startSpan name_ None t).2
       ∧ name s = name_ ∧ attributes s = [] ∧ status s = None
       ∧ endTimeUnixNano s = None.
Proof.
  unfold at_, startSpan, generateTraceId, generateSpanId, generateId,
    getRandomValues. simpl.
  eexists. split; [split; [apply lookup_insert_eq | done] | done].
Qed.

Lemma instrument_rejects h fn p e t :
  settled (fn (Some p)) = rejects e →
  let id := tc_spanId (startSpan (spanName h) None t).1 in
  instrument h fn (Some p) t
  = (Threw (rethrown e),
     caught id e
       (advance (elapsed (fn (Some p)))
          (setSpanAttributes id (request_attributes h p)
             (startSpan (spanName h) None t).2))).
Proof.
  intros H id. unfold instrument, id, caught, rethrown.
  destruct (startSpan (spanName h) None t) as [ctx t0].
  unfold try_catch, bind, record_request, lift, await, throw. rewrite H.
  by destruct (error_text e).
Qed.

Lemma extract_usage_ok h id r t :
  usage_failure h r = None →
  extract_usage h id r t
  = (Returned tt, setSpanAttributes id (usage_attributes h r) t).
Proof.
  unfold usage_failure, extract_usage, usage_attributes.
  destruct h; try done; destruct (response_usage r) as [u0|]; try done;
    destruct (response_body r) as [[| | |[u|]]|]; done.
Qed.


Lemma instrument_resolves h fn p r t :
  settled (fn (Some p)) = resolves r →
  usage_failure h r = None →
  let id := tc_spanId (startSpan (spanName h) None t).1 in
  let t0 := (startSpan (spanName h) None t).2 in
  instrument h fn (Some p) t
  = (Returned r,
     endSpan id
       (setSpanStatus id 0 None
          (setSpanAttributes id (usage_attributes h r)
             (setSpanAttribute id "gen_ai.response.latency_ms"
                (JInt (Z.max 0 (elapsed (fn (Some p)))))
                (advance (elapsed (fn (Some p)))
                   (setSpanAttributes id (request_attributes h p) t0)))))).
Proof.
  intros H Hu id t0. unfold instrument, id, t0.
  destruct (at_start (spanName h) t) as (s0 & Hat & _).
  destruct (startSpan (spanName h) None t) as [ctx u0]. simpl in Hat.
  unfold try_catch, bind, record_request, lift, await, throw, Date_now, ret.
  rewrite H. rewrite extract_usage_ok by done.
  pose proof (at_advance _ _ _ _ _ (elapsed (fn (Some p)))
                (at_attrs _ _ _ _ _ (request_attributes h p) Hat)) as (_ & _ & ->).
  destruct Hat as (_ & _ & ->). by rewrite Z.add_simpl_l.
Qed.

Lemma at_caught id s c n t error :
  at_ id s c n t →
  is_Some (error_text error) →
  activeSpans (caught id error t) !! id = None
  ∧ ∃ s', closedSpans (caught id error t) = c ++ [s']
      ∧ name s' = name s
      ∧ status s' = Some (2, Some (status_message error))
      ∧ attributes s' = attributes s ++ error_attributes error
      ∧ endTimeUnixNano s' = Some (n * 1000000).
Proof.
  intros H [text Htext]. unfold caught, error_attributes, error_message.
  rewrite Htext.
  destruct (at_end _ _ _ _ _
              (at_attr _ _ _ _ _ "error.message" (JString text)
                 (at_attr _ _ _ _ _ "error" (JBool true)
                    (at_status _ _ _ _ _ 2 (Some (status_message error)) H))))
    as (Hc & Hgone).
  split; [done|]. eexists. split; [exact Hc|]. simpl.
  by rewrite <- app_assoc.
Qed.

(** When [String(error)] throws, the [catch] block stops after marking
    the span, which stays filed. *)
Lemma at_caught_stuck id s c n t error :
  at_ id s c n t →
  error_text error = None →
  at_ id (push_attribute "error" (boolValue true)
            (with_status 2 (Some "Unknown error") s)) c n
    (caught id error t).
Proof.
  intros H Htext. unfold caught. rewrite Htext.
  replace "Unknown error" with (status_message error)
    by (by destruct error as [|[|]]).
  exact (at_attr _ _ _ _ _ "error" (JBool true)
           (at_status _ _ _ _ _ 2 (Some (status_message error)) H)).
Qed.



Lemma instrument_nullish_params h fn t :
  let id := tc_spanId (startSpan (spanName h) None t).1 in
  let t0 := (startSpan (spanName h) None t).2 in
  let e := ThrownError "TypeError" "Cannot read properties of undefined" in
  instrument h fn None t
  = (Threw e,
     caught id e
       (setSpanAttributes id
          (match h with
           | BedrockCall => []
           | _ => [("gen_ai.system", JString (system h))]
           end) t0)).
Proof.
  intros id t0 e. unfold instrument, id, t0, caught.
  destruct (startSpan (spanName h) None t) as [ctx u0].
  unfold try_catch, bind, record_request, lift, await, throw, Date_now, ret.
  by destruct h.
Qed.

Lemma name_push_all l s : name (push_all l s) = name s.
Proof. by destruct (push_all_fields l s) as (_ & -> & _). Qed.

Ltac span_name :=
  repeat first
    [ rewrite name_push_all
    | progress cbn [name push_attribute with_status with_endTime] ];
  try done.


(** ** Provider failures *)

(** C2 as stated fails: when the provider call rejects with a value that
    is not an [Error], the status message is the fixed text, not the
    message of the failure. *)
Lemma thrown_string_status_message :
  let error := ThrownValue (Some "rate limited") in
  let res := instrumentOpenAICall (always 35 (rejects error))
               (Some demo_params) demo_tracer in
  ∃ s, last (closedSpans res.2) = Some s
       ∧ status s = Some (2, Some "Unknown error")
       ∧ status s ≠ Some (2, Some "rate limited").
Proof. vm_compute. eexists. split; [reflexivity|]. split; [reflexivity|]. discriminate. Qed.

(** C2, amended. When the provider call of any instrumented method
    fails with an [Error] instance, or with another value that
    [String] converts to a text, the call re-raises that very failure,
    and exactly one span is closed: it carries the method's name, status
    code 2 (ERROR) whose message is the failure's message when the
    failure is an [Error] and the text [Unknown error] otherwise, the
    request attributes followed by [error = true] and [error.message]
    (the failure's message, respectively its [String] text), and its
    end time; its id is no longer active. *)
Theorem failure_is_recorded_and_rethrown h fn p error text t :
  settled (fn (Some p)) = rejects error →
  (∃ error_name, error = ThrownError error_name text)
  ∨ error = ThrownValue (Some text) →
  let res := instrument h fn (Some p) t in
  res.1 = Threw error
  ∧ activeSpans res.2 !! tc_spanId (startSpan (spanName h) None t).1 = None
  ∧ ∃ s, closedSpans res.2 = closedSpans t ++ [s]
      ∧ name s = spanName h
      ∧ status s
        = Some (2, Some match error with
                        | ThrownError _ message => message
                        | ThrownValue _ => "Unknown error"
                        end)
      ∧ attributes s
        = encoded (request_attributes h p)
          ++ [("error", boolValue true);
              ("error.message", stringValue text)]
      ∧ endTimeUnixNano s
        = Some ((now t + Z.max 0 (elapsed (fn (Some p)))) * 1000000).
Proof.
  intros Hs Htext res. unfold res.
  assert (error_text error = Some text) as Ht
    by (by destruct Htext as [[n ->] | ->]).
  rewrite (instrument_rejects h fn p error t Hs). cbn [fst snd].
  split; [by unfold rethrown; rewrite Ht|].
  destruct (at_start (spanName h) t) as (s0 & Hat & Hname & Hattr & _).
  edestruct (at_caught (tc_spanId (startSpan (spanName h) None t).1))
    as (Hgone & s' & Hc & Hn & Hst & Ha & He);
    [apply at_advance, at_attrs, Hat | by eexists |].
  split; [exact Hgone|]. exists s'. split; [exact Hc|].
  split; [rewrite Hn; span_name|]. split; [exact Hst|]. split; [|exact He].
  rewrite Ha. destruct (push_all_fields (request_attributes h p) s0) as (-> & _).
  rewrite Hattr. unfold error_attributes, error_message. by rewrite Ht.
Qed.

(** A worked instance: a Mistral call rejected with an [Error]. *)
Lemma failure_is_recorded_and_rethrown_witness :
  let error := ThrownError "APIError" "429 Too Many Requests" in
  let res := instrument MistralCall (always 35 (rejects error))
               (Some demo_params) demo_tracer in
  res.1 = Threw error
  ∧ ∃ s, closedSpans res.2 = closedSpans demo_tracer ++ [s]
      ∧ status s = Some (2, Some "429 Too Many Requests")
      ∧ last (attributes s)
        = Some ("error.message", stringValue "429 Too Many Requests").
Proof.
  intros error res.
  destruct (failure_is_recorded_and_rethrown MistralCall
              (always 35 (rejects error)) demo_params error
              "429 Too Many Requests" demo_tracer eq_refl
              (or_introl (ex_intro _ "APIError" eq_refl)))
    as (Hres & _ & s & Hc & _ & Hst & Ha & _).
  split; [exact Hres|]. exists s. split; [exact Hc|]. split; [exact Hst|].
  rewrite Ha. vm_compute. reflexivity.
Defined.

(** ** Usage extraction *)

Lemma or0_default counter : or0 counter = default 0 counter.
Proof. destruct counter as [n|]; [|done]. simpl. by destruct (Z.eqb_spec n 0). Qed.

Lemma nearest_double_exact z : safe_integer z = true → nearest_double z = z.
Proof.
  unfold safe_integer, nearest_double. intros H%Z.leb_le.
  assert (Z.log2 (Z.abs z) + 1 ≤ 53) as Hbits.
  { destruct (decide (Z.abs z = 0)) as [->|Hz]; [done|].
    assert (Z.log2 (Z.abs z) < 53); [|lia].
    apply Z.log2_lt_pow2; lia. }
  cbv zeta. by destruct (Z.leb_spec (Z.log2 (Z.abs z) + 1) 53); [|lia].
Qed.

Lemma js_add_exact a b : safe_integer (a + b) = true → js_add a b = a + b.
Proof. apply nearest_double_exact. Qed.

(** C6. A resolved messages call returns the response, and the span it
    closes carries, after the request attributes and the latency, the
    six usage attributes when the response has a usage object: prompt
    tokens from [input_tokens], completion tokens from [output_tokens],
    each 0 when the field is absent, and as total their sum, the
    counters and the sum being safe integers (the sum of two numbers is
    exact there); it carries no usage attribute when the response has no
    usage object. *)
Theorem anthropic_usage_extraction fn p r t :
  settled (fn (Some p)) = resolves r →
  from_option safe_usage true (response_usage r) = true →
  let res := instrumentAnthropicCall fn (Some p) t in
  res.1 = Returned r
  ∧ ∃ s, closedSpans res.2 = closedSpans t ++ [s]
      ∧ attributes s
        = encoded (request_attributes AnthropicCall p)
          ++ [("gen_ai.response.latency_ms",
               intValue (Z.max 0 (elapsed (fn (Some p)))))]
          ++ match response_usage r with
             | Some u =>
                 let prompt := default 0 (input_tokens u) in
                 let completion := default 0 (output_tokens u) in
                 [("gen_ai.usage.prompt_tokens", intValue prompt);
                  ("gen_ai.usage.completion_tokens", intValue completion);
                  ("gen_ai.usage.total_tokens", intValue (prompt + completion));
                  ("ai.prompt_tokens", intValue prompt);
                  ("ai.completion_tokens", intValue completion);
                  ("ai.total_tokens", intValue (prompt + completion))]
             | None => []
             end.
Proof.
  intros Hs Hsafe res. unfold res, instrumentAnthropicCall.
  rewrite (instrument_resolves AnthropicCall fn p r t Hs eq_refl). cbn [fst snd].
  split; [done|].
  destruct (at_start (spanName AnthropicCall) t) as (s0 & Hat & Hname & Hattr & _).
  edestruct at_end as (Hc & Hgone);
    [apply at_status, at_attrs, at_attr, at_advance, at_attrs, Hat|].
  eexists. split; [exact Hc|].
  cbn [attributes with_endTime with_status].
  destruct (push_all_fields (usage_attributes AnthropicCall r)
    (push_attribute "gen_ai.response.latency_ms"
       (encodeValue (JInt (Z.max 0 (elapsed (fn (Some p))))))
       (push_all (request_attributes AnthropicCall p) s0))) as (-> & _).
  cbn [attributes push_attribute].
  destruct (push_all_fields (request_attributes AnthropicCall p) s0) as (-> & _).
  rewrite Hattr, <- app_assoc. cbn [app]. do 2 f_equal.
  unfold usage_attributes. destruct (response_usage r) as [u|]; [|done].
  cbn in Hsafe. unfold safe_usage in Hsafe.
  apply andb_prop in Hsafe as [_ Hsum].
  cbn. rewrite !or0_default. by rewrite js_add_exact.
Qed.

(** A worked instance: [usage = {input_tokens: 7, output_tokens: 3}]
    yields [ai.total_tokens = 10]. *)
Lemma anthropic_usage_extraction_witness :
  let res := instrumentAnthropicCall
               (always 120 (resolves messages_response))
               (Some demo_params) demo_tracer in
  res.1 = Returned messages_response
  ∧ ∃ s, closedSpans res.2 = closedSpans demo_tracer ++ [s]
      ∧ last (attributes s) = Some ("ai.total_tokens", intValue 10).
Proof.
  intros res.
  destruct (anthropic_usage_extraction (always 120 (resolves messages_response))
              demo_params messages_response demo_tracer eq_refl eq_refl)
    as (Hres & s & Hc & Ha).
  split; [exact Hres|]. exists s. split; [exact Hc|].
  rewrite Ha. vm_compute. reflexivity.
Defined.

(** C1, at the failing input: the Bedrock provider call resolves, the
    body of the response is not JSON, and the instrumented call rejects
    with the parse error instead of returning the response; the span is
    closed with status ERROR. *)
Theorem bedrock_malformed_body_rejects :
  let res := instrumentBedrockCall (always 120 (resolves garbled_response))
               (Some demo_command) demo_tracer in
  res.1 = Threw (ThrownError "SyntaxError" "Unexpected token in JSON")
  ∧ res.1 ≠ Returned garbled_response
  ∧ ∃ s, closedSpans res.2 = [s]
      ∧ status s = Some (2, Some "Unexpected token in JSON").
Proof.
  vm_compute. split; [reflexivity|]. split; [discriminate|].
  eexists. split; reflexivity.
Qed.

(** When the usage extraction does not throw, a resolved provider call
    makes the instrumented call return the very response, whatever the
    exporter does meanwhile. *)
Lemma instrument_returns_response h fn p r t :
  settled (fn (Some p)) = resolves r →
  usage_failure h r = None →
  (instrument h fn (Some p) t).1 = Returned r.
Proof. intros Hs Hu. by rewrite (instrument_resolves h fn p r t Hs Hu). Qed.

(** ** The proxies *)

Lemma is_key_false s literal : is_key (PStr s) literal = false ↔ s ≠ literal.
Proof. simpl. apply String.eqb_neq. Qed.

Lemma new_Proxy_object target trap :
  is_object target = true → new_Proxy target trap = Proxied trap target.
Proof. unfold new_Proxy. by intros ->. Qed.

Lemma new_Proxy_primitive target trap :
  is_object target = false → new_Proxy target trap = TypeError.
Proof. unfold new_Proxy. by intros ->. Qed.

Lemma new_Proxy_not_forwarded target trap v : new_Proxy target trap ≠ Forwarded v.
Proof. unfold new_Proxy. by destruct (is_object target). Qed.

Lemma openai_get_prefix client_ prop :
  prop ∈ openai_prefixes →
  ∃ trap, trap_get OpenAI_client client_ (PStr prop)
          = new_Proxy (read client_ (PStr prop)) trap.
Proof.
  unfold openai_prefixes. rewrite !elem_of_cons, elem_of_nil.
  intros [->|[->|[->|[->|[->|[]]]]]]; eexists; reflexivity.
Qed.

Lemma openai_get_other client_ prop :
  prop ∉ openai_prefixes →
  trap_get OpenAI_client client_ (PStr prop) = Forwarded (read client_ (PStr prop)).
Proof.
  unfold openai_prefixes. rewrite !not_elem_of_cons.
  intros (H1 & H2 & H3 & H4 & H5 & _). unfold trap_get.
  apply is_key_false in H1, H2, H3, H4, H5. by rewrite H1, H2, H3, H4, H5.
Qed.

(** C10. On a wrapped client, reading a top-level property named by an
    instrumented prefix (for OpenAI: chat, embeddings, images, audio,
    moderations; for Anthropic: messages) never forwards the underlying
    value as it is, and throws a [TypeError] when that value is not an
    object; reading any other property forwards the underlying value
    unchanged. *)
Theorem instrumented_prefix_needs_object client_ prop :
  is_object client_ = true →
  let original := read client_ (PStr prop) in
  (prop ∈ openai_prefixes →
     get (wrapOpenAI client_) (PStr prop) ≠ Forwarded original
     ∧ (is_object original = false →
        get (wrapOpenAI client_) (PStr prop) = TypeError))
  ∧ (prop ∉ openai_prefixes →
     get (wrapOpenAI client_) (PStr prop) = Forwarded original)
  ∧ (prop = "messages" →
     get (wrapAnthropic client_) (PStr prop) ≠ Forwarded original
     ∧ (is_object original = false →
        get (wrapAnthropic client_) (PStr prop) = TypeError))
  ∧ (prop ≠ "messages" →
     get (wrapAnthropic client_) (PStr prop) = Forwarded original).
Proof.
  intros Hobj original. unfold wrapOpenAI, wrapAnthropic.
  rewrite !new_Proxy_object by done. cbn [get].
  split; [|split; [|split]].
  - intros Hin. destruct (openai_get_prefix client_ prop Hin) as (trap & ->).
    split; [apply new_Proxy_not_forwarded | apply new_Proxy_primitive].
  - apply openai_get_other.
  - intros ->. cbn [trap_get is_key String.eqb Ascii.eqb Bool.eqb].
    split; [apply new_Proxy_not_forwarded | apply new_Proxy_primitive].
  - intros Hne%is_key_false. unfold trap_get. by rewrite Hne.
Qed.

(** A worked instance: a client without [chat] and [messages]. *)
Lemma instrumented_prefix_needs_object_witness :
  get (wrapOpenAI bare_client) (PStr "chat") = TypeError
  ∧ get (wrapOpenAI bare_client) (PStr "apiKey")
    = Forwarded (CPrim (JString "sk-test"))
  ∧ get (wrapAnthropic bare_client) (PStr "messages") = TypeError.
Proof.
  destruct (instrumented_prefix_needs_object bare_client "chat" eq_refl)
    as (Hchat & _).
  destruct (instrumented_prefix_needs_object bare_client "apiKey" eq_refl)
    as (_ & Hkey & _).
  destruct (instrumented_prefix_needs_object bare_client "messages" eq_refl)
    as (_ & _ & Hmsg & _).
  split; [|split].
  - apply Hchat; [by_compute | reflexivity].
  - apply Hkey. by_compute.
  - apply Hmsg; reflexivity.
Defined.

(** ** Call paths and span names *)

Lemma trap_get_edge trap target k :
  trap_get trap target (PStr k)
  = match edge trap k with
    | Some (inl below) => new_Proxy (read target (PStr k)) below
    | Some (inr h) => Instrumented h (read target (PStr k)) target
    | None => Forwarded (read target (PStr k))
    end.
Proof.
  destruct trap; cbn [trap_get edge is_key];
    repeat (match goal with
            | |- context [if ?b then _ else _] => destruct b eqn:?
            end; cbn [orb] in *; try done).
Qed.

Lemma get_path_TypeError path : get_path TypeError path = TypeError.
Proof. by induction path. Qed.

Lemma get_path_Forwarded v path h fn receiver :
  get_path (Forwarded v) path ≠ Instrumented h fn receiver.
Proof.
  revert v. induction path as [|k path IH]; intros v; [done|].
  cbn [get_path foldl]. fold (get_path (get (Forwarded v) (PStr k)) path).
  destruct v as [[]|callable props]; cbn [get];
    first [apply IH | by rewrite get_path_TypeError].
Qed.

Lemma route_complete trap target path h fn receiver :
  get_path (Proxied trap target) path = Instrumented h fn receiver →
  route trap path = Some h.
Proof.
  revert trap target. induction path as [|k path IH]; intros trap target; [done|].
  cbn [get_path foldl get route]. rewrite trap_get_edge.
  destruct (edge trap k) as [[below|h']|].
  - unfold new_Proxy. destruct (is_object (read target (PStr k))).
    + apply IH.
    + fold (get_path TypeError path). by rewrite get_path_TypeError.
  - destruct path as [|k' path]; [by intros [= -> _ _]|].
    cbn [foldl get]. fold (get_path (Forwarded (CPrim JUndefined)) path).
    intros H. by apply get_path_Forwarded in H.
  - fold (get_path (Forwarded (read target (PStr k))) path).
    intros H. by apply get_path_Forwarded in H.
Qed.

Ltac split_keys :=
  repeat (cbn [route edge client_trap orb];
          match goal with
          | |- context [String.eqb ?a ?b] =>
              destruct (String.eqb_spec a b); [subst|]
          end).

Lemma route_intercepted p path h :
  route (client_trap p) path = Some h → (p, path, h) ∈ intercepted.
Proof.
  destruct p; destruct path as [|k1 [|k2 [|k3 [|k4 rest]]]];
    split_keys; cbn [route edge client_trap orb]; try discriminate;
    intros [= <-]; unfold intercepted;
    repeat first [apply list_elem_of_here | apply list_elem_of_further].
Qed.

Lemma wrap_path p client_ path h fn receiver :
  get_path (wrap p client_) path = Instrumented h fn receiver →
  (p, path, h) ∈ intercepted.
Proof.
  intros H. apply route_intercepted.
  assert (wrap p client_ = new_Proxy client_ (client_trap p)) as Hw by (by destruct p).
  rewrite Hw in H. unfold new_Proxy in H. destruct (is_object client_).
  - by eapply route_complete.
  - by rewrite get_path_TypeError in H.
Qed.




(** ** Further properties of the tracer *)

Lemma closedSpans_step_eq op t :
  closedSpans (step op t) = closedSpans t ++ closed_by op t.
Proof.
  destruct op as [n c|id k v|id code m|id| |dt|o]; simpl;
    rewrite ?app_nil_r.
  - destruct (startSpan_fields n c t) as (_ & Hp & _ & _ & Hr & _).
    simpl in *. unfold closedSpans. by rewrite Hp, Hr.
  - destruct (setSpanAttribute_fields id k v t) as (Hp & _ & _ & Hr & _).
    simpl in *. unfold closedSpans. by rewrite Hp, Hr.
  - destruct (setSpanStatus_fields id code m t) as (Hp & _ & _ & Hr & _).
    simpl in *. unfold closedSpans. by rewrite Hp, Hr.
  - destruct (activeSpans t !! id) as [s|] eqn:E.
    + by destruct (endSpan_closes t id s E) as (_ & -> & _).
    + rewrite endSpan_inactive by done. by rewrite app_nil_r.
  - by destruct (flush_fields t) as (_ & -> & _).
  - by destruct (advance_fields dt t) as (_ & -> & _).
  - destruct (exportSpans_resume_fields o t) as (_ & Hp & Hr & _).
    unfold closedSpans. by rewrite Hp, Hr.
Qed.

(** X6. Along any run, the closed spans (those already sent, then those
    pending) are extended by exactly the spans that [endSpan] closes on
    an active id, in the order of those calls: nothing is lost,
    duplicated, reordered or added by batching. *)
Theorem closed_spans_follow_endSpan_order ops t :
  closedSpans (run ops t) = closedSpans t ++ closed_along ops t.
Proof.
  revert t. induction ops as [|op ops IH]; intros t; simpl.
  - by rewrite app_nil_r.
  - change (run (op :: ops) t) with (run ops (step op t)).
    rewrite IH, closedSpans_step_eq. by rewrite app_assoc.
Qed.

(** X5. An operation that neither addresses nor generates the id [id]
    leaves the span filed under [id] exactly as it was. *)
Theorem other_spans_untouched op t id :
  subject op t ≠ Some id →
  activeSpans (step op t) !! id = activeSpans t !! id.
Proof.
  intros Hne.
  destruct op as [n c|id' k v|id' code m|id'| |dt|o]; simpl in *.
  - destruct (startSpan_active n c t) as (sp & ->).
    apply lookup_insert_ne. congruence.
  - unfold setSpanAttribute. destruct (activeSpans t !! id'); [|done].
    simpl. apply lookup_insert_ne. congruence.
  - unfold setSpanStatus. destruct (activeSpans t !! id'); [|done].
    simpl. apply lookup_insert_ne. congruence.
  - destruct (activeSpans t !! id') as [s|] eqn:E.
    + destruct (endSpan_closes t id' s E) as (-> & _).
      apply lookup_delete_ne. congruence.
    + by rewrite endSpan_inactive.
  - by destruct (flush_fields t) as (-> & _).
  - by destruct (advance_fields dt t) as (-> & _).
  - by destruct (exportSpans_resume_fields o t) as (-> & _).
Qed.

(** A worked instance: closing one of two open spans leaves the other. *)
Lemma other_spans_untouched_witness :
  activeSpans (step (op_endSpan "1011121314151617") two_open)
    !! "28292a2b2c2d2e2f"
  = activeSpans two_open !! "28292a2b2c2d2e2f".
Proof.
  apply (other_spans_untouched (op_endSpan "1011121314151617") two_open
           "28292a2b2c2d2e2f").
  cbn [subject]. discriminate.
Defined.

(** X4. [setSpanStatus] on an id that is not active returns the state
    untouched; on an active id it replaces the status and nothing else
    of the span; set twice, the last status wins. *)
Theorem setSpanStatus_last_write_wins t id code1 message1 code2 message2 :
  (activeSpans t !! id = None → setSpanStatus id code1 message1 t = t)
  ∧ (∀ s, activeSpans t !! id = Some s →
       activeSpans (setSpanStatus id code1 message1 t) !! id
       = Some (with_status code1 message1 s)
       ∧ attributes (with_status code1 message1 s) = attributes s
       ∧ endTimeUnixNano (with_status code1 message1 s) = endTimeUnixNano s)
  ∧ setSpanStatus id code2 message2 (setSpanStatus id code1 message1 t)
    = setSpanStatus id code2 message2 t.
Proof.
  unfold setSpanStatus. split; [by intros ->|]. split.
  - intros s ->. simpl. split; [apply lookup_insert_eq | done].
  - destruct (activeSpans t !! id) as [s|] eqn:E; simpl; [|by rewrite E].
    rewrite lookup_insert_eq. unfold set_activeSpans. simpl.
    by rewrite insert_insert_eq.
Qed.

(** A worked instance: a status set on an unknown id, and an ERROR status
    overwritten by OK. *)
Lemma setSpanStatus_last_write_wins_witness :
  let t := (startSpan "openai.embeddings.create" None demo_tracer).2 in
  setSpanStatus "ffffffffffffffff" 2 (Some "boom") t = t
  ∧ (status <$> activeSpans (setSpanStatus "1011121314151617" 0 None
                               (setSpanStatus "1011121314151617" 2 (Some "boom") t))
                !! "1011121314151617")
    = Some (Some (0, None)).
Proof.
  intros t.
  destruct (setSpanStatus_last_write_wins t "ffffffffffffffff" 2 (Some "boom") 0 None)
    as (Hnone & _).
  destruct (setSpanStatus_last_write_wins t "1011121314151617" 2 (Some "boom") 0 None)
    as (_ & _ & Hlast).
  split; [apply Hnone; vm_compute; reflexivity|].
  rewrite Hlast. vm_compute. reflexivity.
Defined.

Lemma reachable_step op t : reachable t → reachable (step op t).
Proof.
  intros (cfg & clock & tape & ops & ->).
  exists cfg, clock, tape, (ops ++ [op]). unfold run. by rewrite foldl_app.
Qed.

Lemma reachable_new cfg clock tape : reachable (new_Tracer cfg clock tape).
Proof. by exists cfg, clock, tape, []. Qed.

Lemma reachable_induction (P : Tracer → Prop) :
  (∀ cfg clock tape, P (new_Tracer cfg clock tape)) →
  (∀ op t, reachable t → P t → P (step op t)) →
  ∀ t, reachable t → P t.
Proof.
  intros Hnew Hstep t (cfg & clock & tape & ops & ->).
  induction ops as [|op ops IH] using rev_ind; [apply Hnew|].
  unfold run. rewrite foldl_app. simpl. apply Hstep; [|exact IH].
  by exists cfg, clock, tape, ops.
Qed.





Lemma flush_due_soon_reachable t : reachable t → flush_due_soon t.
Proof.
  revert t. apply reachable_induction;
    [intros cfg clock tape Hp; by destruct Hp|].
  intros op t Hr IH. pose proof (reachable_inv t Hr) as Hinv.
  pose proof Hinv as (Hk & Ht & Hb). unfold flush_due_soon in *.
  destruct op as [n c|id k v|id code m|id| |dt|o]; simpl.
  - destruct (startSpan_fields n c t) as (_ & -> & _ & -> & _ & -> & _). exact IH.
  - destruct (setSpanAttribute_fields id k v t) as (-> & _ & -> & _ & -> & _).
    exact IH.
  - destruct (setSpanStatus_fields id code m t) as (-> & _ & -> & _ & -> & _).
    exact IH.
  - destruct (activeSpans t !! id) as [s|] eqn:E;
      [|by rewrite endSpan_inactive].
    destruct (decide (S (length (pendingExports t)) < 10)%nat).
    + rewrite (endSpan_arm t id s) by done. simpl. intros _.
      eexists _, _. split; [reflexivity | lia].
    + rewrite (endSpan_flush t id s) by (done || lia).
      match goal with |- context [exportSpans ?u] =>
        by destruct (exportSpans_fields u) as (_ & -> & _) end.
  - unfold flush.
    match goal with |- context [exportSpans ?u] =>
      by destruct (exportSpans_fields u) as (_ & -> & _) end.
  - unfold one_timer in Ht.
    destruct (timers t) as [|[h d] [|e l]] eqn:Eti; [| |done].
    + rewrite advance_idle by (rewrite Eti; constructor). simpl.
      intros Hp. by destruct (IH Hp) as (? & ? & ? & _).
    + destruct (decide (d ≤ now t + Z.max 0 dt)) as [Hd|Hd].
      * rewrite (advance_fire t dt h d) by done.
        match goal with |- context [exportSpans ?u] =>
          by destruct (exportSpans_fields u) as (_ & -> & _) end.
      * rewrite advance_idle by (rewrite Eti; repeat constructor; simpl; lia).
        simpl. intros Hp. destruct (IH Hp) as (h' & d' & [= -> ->] & Hd').
        rewrite Eti. eexists _, _. split; [reflexivity | lia].
  - destruct (exportSpans_resume_fields o t) as (_ & -> & _ & -> & _ & -> & _).
    exact IH.
Qed.

(** X8. On a reachable tracer, once 1000 ms or more pass without any
    call, nothing is pending, no timeout is armed, and every span closed
    so far has been handed to [fetch]. *)
Theorem idle_second_empties_buffer t dt :
  reachable t → 1000 ≤ dt →
  pendingExports (advance dt t) = []
  ∧ timers (advance dt t) = []
  ∧ concat (map (λ r, spans (body r)) (requests (advance dt t)))
    = closedSpans t.
Proof.
  intros Hr Hdt. pose proof (reachable_inv t Hr) as (Hk & Ht & Hb).
  pose proof (flush_due_soon_reachable t Hr) as Hsoon.
  assert (pendingExports (advance dt t) = [] ∧ timers (advance dt t) = [])
    as [Hp Hti].
  { destruct (pendingExports t) as [|s p] eqn:E.
    - unfold one_timer in Ht. rewrite E in Ht.
      destruct (timers t) as [|[h d] [|e l]] eqn:Eti; [|by destruct Ht|done].
      rewrite advance_idle by (rewrite Eti; constructor). simpl. by rewrite E, Eti.
    - destruct Hsoon as (h & d & Eti & Hd); [by rewrite E|].
      rewrite (advance_fire t dt h d) by (done || lia).
      match goal with |- context [exportSpans ?u] =>
        by destruct (exportSpans_fields u) as (_ & -> & _ & -> & _) end. }
  split; [done|]. split; [done|].
  destruct (advance_fields dt t) as (_ & <- & _).
  unfold closedSpans. by rewrite Hp, app_nil_r.
Qed.

(** A worked instance: one pending span and a second of silence. *)
Lemma idle_second_empties_buffer_witness :
  pendingExports (advance 1000 one_ended) = []
  ∧ timers (advance 1000 one_ended) = []
  ∧ concat (map (λ r, spans (body r)) (requests (advance 1000 one_ended)))
    = closedSpans one_ended.
Proof.
  apply idle_second_empties_buffer; [|lia].
  exists demo_config, 1700000000000, counting_tape. by eexists.
Defined.

(** X9. On a reachable tracer [flush()] leaves nothing pending and no
    timeout armed, every span closed so far has then been handed to
    [fetch], and flushing again changes nothing. *)
Theorem flush_sends_everything_once t :
  reachable t →
  pendingExports (flush t) = []
  ∧ timers (flush t) = []
  ∧ concat (map (λ r, spans (body r)) (requests (flush t))) = closedSpans t
  ∧ flush (flush t) = flush t.
Proof.
  intros Hr. pose proof (reachable_inv t Hr) as (Hk & Ht & Hb).
  assert (pendingExports (flush t) = [] ∧ timers (flush t) = []) as [Hp Hti].
  { unfold flush. rewrite cancel_timer by done.
    match goal with |- context [exportSpans ?u] =>
      by destruct (exportSpans_fields u) as (_ & -> & _ & -> & _) end. }
  split; [done|]. split; [done|]. split.
  - destruct (flush_fields t) as (_ & <- & _).
    unfold closedSpans. by rewrite Hp, app_nil_r.
  - pose proof (reachable_inv _ (reachable_step op_flush t Hr)) as (_ & Ht2 & _).
    simpl in Ht2. unfold flush at 1. rewrite cancel_timer by done.
    rewrite exportSpans_empty by done. apply set_timers_id. by rewrite Hti.
Qed.

(** A worked instance: one pending span flushed twice. *)
Lemma flush_sends_everything_once_witness :
  pendingExports (flush one_ended) = []
  ∧ timers (flush one_ended) = []
  ∧ concat (map (λ r, spans (body r)) (requests (flush one_ended)))
    = closedSpans one_ended
  ∧ flush (flush one_ended) = flush one_ended.
Proof.
  apply flush_sends_everything_once.
  exists demo_config, 1700000000000, counting_tape. by eexists.
Defined.

Lemma ended_when_closed_step op t :
  ended_when_closed t → ended_when_closed (step op t).
Proof.
  intros [Hact Hclosed]. split.
  - intros k s.
    destruct op as [n c|id key v|id code m|id| |dt|o]; simpl.
    + unfold startSpan, generateTraceId, generateSpanId, generateId,
        getRandomValues.
      destruct (truthy_str (tc_traceId <$> c)); simpl;
        rewrite lookup_insert; case_decide;
        first [by intros [= <-] | apply Hact].
    + unfold setSpanAttribute.
      destruct (activeSpans t !! id) as [s0|] eqn:E; [|apply Hact]. simpl.
      rewrite lookup_insert. case_decide; [|apply Hact].
      intros [= <-]. simpl. by apply Hact with id.
    + unfold setSpanStatus.
      destruct (activeSpans t !! id) as [s0|] eqn:E; [|apply Hact]. simpl.
      rewrite lookup_insert. case_decide; [|apply Hact].
      intros [= <-]. simpl. by apply Hact with id.
    + destruct (activeSpans t !! id) as [s0|] eqn:E.
      * destruct (endSpan_closes t id s0 E) as (-> & _).
        rewrite lookup_delete. case_decide; [done | apply Hact].
      * rewrite endSpan_inactive by done. apply Hact.
    + destruct (flush_fields t) as (-> & _). apply Hact.
    + destruct (advance_fields dt t) as (-> & _). apply Hact.
    + destruct (exportSpans_resume_fields o t) as (-> & _). apply Hact.
  - rewrite closedSpans_step_eq. apply Forall_app. split; [done|].
    destruct op as [n c|id key v|id code m|id| |dt|o]; simpl; try constructor.
    destruct (activeSpans t !! id) as [s0|] eqn:E; [|constructor].
    apply Forall_singleton. by eexists.
Qed.

(** X10. In every reachable state an active span has no end time and
    every closed span has one: the end time is set by [endSpan], and
    only there. *)
Theorem end_time_set_exactly_on_close t :
  reachable t → ended_when_closed t.
Proof.
  revert t. apply reachable_induction.
  - intros cfg clock tape. split; [done | constructor].
  - intros op t _. apply ended_when_closed_step.
Qed.

(** A worked instance: the span of [one_ended]. *)
Lemma end_time_set_exactly_on_close_witness : ended_when_closed one_ended.
Proof.
  apply end_time_set_exactly_on_close.
  exists demo_config, 1700000000000, counting_tape. by eexists.
Defined.

Lemma foldl_exportSpans_console (due : list (nat * Z)) t :
  debug (config t) = false →
  console (foldl (λ acc _, exportSpans acc) t due) = console t.
Proof.
  revert t. induction due as [|e due IH]; intros t Hd; [done|]. simpl.
  rewrite IH.
  - unfold exportSpans. destruct (pendingExports t); [done|]. simpl. by rewrite Hd.
  - by destruct (exportSpans_fields t) as (_ & _ & _ & _ & _ & -> & _).
Qed.

(** X11. With [debug] off, no tracer operation writes to the console,
    except that the settling of an export that did not succeed appends
    one [console.error] line. *)
Theorem quiet_unless_export_fails op t :
  debug (config t) = false →
  console (step op t) = console t
  ∨ ∃ o message detail,
      op = op_settle o
      ∧ (∀ json, o ≠ response_ok (Some json))
      ∧ console (step op t) = console t ++ [console_error message detail].
Proof.
  intros Hd.
  destruct op as [n c|id key v|id code m|id| |dt|o]; simpl.
  - left. unfold startSpan, generateTraceId, generateSpanId, generateId,
      getRandomValues.
    destruct (truthy_str (tc_traceId <$> c)); simpl; by rewrite Hd.
  - left. unfold setSpanAttribute. by destruct (activeSpans t !! id).
  - left. unfold setSpanStatus. by destruct (activeSpans t !! id).
  - left. unfold endSpan. destruct (activeSpans t !! id) as [s|]; [|done].
    unfold scheduleExport.
    match goal with |- context [bool_decide ?P] => destruct (bool_decide P) end.
    + unfold exportSpans.
      match goal with |- context [match pendingExports ?u with _ => _ end] =>
        destruct (pendingExports u) eqn:Ep end;
        destruct (exportTimer _); simpl; by rewrite Hd.
    + destruct (exportTimer _); simpl; by rewrite Hd.
  - left. unfold flush, exportSpans.
    match goal with |- context [match pendingExports ?u with _ => _ end] =>
      destruct (pendingExports u) eqn:Ep end;
      destruct (exportTimer t); simpl; by rewrite ?Hd.
  - left. unfold advance, fire_due. by rewrite foldl_exportSpans_console.
  - unfold exportSpans_resume. destruct (inflight t); [by left|].
    destruct o as [e|[x|]|[x|]]; simpl; rewrite ?Hd;
      first [by left | right; eexists _, _, _; split; [reflexivity|]; split; [|reflexivity]; by intros].
Qed.

(** A worked instance: a flush on the test configuration. *)
Lemma quiet_unless_export_fails_witness :
  console (step op_flush one_ended) = console one_ended
  ∨ ∃ o message detail,
      op_flush = op_settle o
      ∧ (∀ json, o ≠ response_ok (Some json))
      ∧ console (step op_flush one_ended)
        = console one_ended ++ [console_error message detail].
Proof. apply quiet_unless_export_fails. vm_compute. reflexivity. Defined.

(** ** Generated identifiers *)

Lemma hex_byte_table :
  forallb (λ i, match hex_byte (N.of_nat i) with
                | String hi (String lo EmptyString) =>
                    is_hex hi && is_hex lo
                    && N.eqb (unhex (hex_byte (N.of_nat i))) (N.of_nat i)
                | _ => false
                end) (seq 0 256) = true.
Proof. vm_compute. reflexivity. Qed.

Lemma hex_byte_spec b :
  (b < 256)%N →
  ∃ hi lo, hex_byte b = String hi (String lo EmptyString)
           ∧ is_hex hi = true ∧ is_hex lo = true ∧ unhex (hex_byte b) = b.
Proof.
  intros Hb. pose proof hex_byte_table as H.
  rewrite forallb_forall in H. specialize (H (N.to_nat b)).
  rewrite N2Nat.id in H.
  destruct (hex_byte b) as [|hi [|lo [|]]] eqn:E;
    try (exfalso; (assert (false = true) as Hf by (apply H, in_seq; lia)); discriminate).
  assert (is_hex hi && is_hex lo && N.eqb (unhex (String hi (String lo EmptyString))) b = true)
    as Hok by (apply H, in_seq; lia).
  apply andb_true_iff in Hok as [Hok Hu]. apply andb_true_iff in Hok as [H1 H2].
  apply N.eqb_eq in Hu. by exists hi, lo.
Qed.

Lemma append_empty s : s +:+ EmptyString = s.
Proof.
  induction s as [|c s IH]; [done|].
  change (String c (s +:+ EmptyString) = String c s). by rewrite IH.
Qed.

Lemma concat_cons_hex b bs :
  String.concat EmptyString (hex_byte b :: map hex_byte bs)
  = hex_byte b +:+ String.concat EmptyString (map hex_byte bs).
Proof.
  destruct bs as [|b' bs]; cbn [map String.concat].
  - by rewrite append_empty.
  - done.
Qed.

Lemma hex_string_spec bs :
  Forall (λ b, (b < 256)%N) bs →
  String.length (String.concat EmptyString (map hex_byte bs))
  = (2 * length bs)%nat
  ∧ Forall (λ c, is_hex c = true)
      (String.list_ascii_of_string (String.concat EmptyString (map hex_byte bs))).
Proof.
  induction 1 as [|b bs Hb _ [IHl IHc]]; [by split|].
  cbn [map]. rewrite concat_cons_hex.
  destruct (hex_byte_spec b Hb) as (hi & lo & -> & Hhi & Hlo & _).
  set (rest := String.concat EmptyString (map hex_byte bs)) in *.
  change (String hi (String lo EmptyString) +:+ rest)
    with (String hi (String lo rest)).
  cbn [String.length String.list_ascii_of_string length]. rewrite IHl.
  split; [lia|]. by repeat constructor.
Qed.

Lemma hex_string_inj bs1 bs2 :
  Forall (λ b, (b < 256)%N) bs1 → Forall (λ b, (b < 256)%N) bs2 →
  String.concat EmptyString (map hex_byte bs1)
  = String.concat EmptyString (map hex_byte bs2) →
  bs1 = bs2.
Proof.
  intros H1. revert bs2. induction H1 as [|b bs Hb _ IH]; intros bs2 H2 Heq.
  - destruct H2 as [|b2 bs2 Hb2 _]; [done|].
    cbn [map] in Heq. rewrite concat_cons_hex in Heq.
    destruct (hex_byte_spec b2 Hb2) as (hi & lo & E & _). rewrite E in Heq.
    discriminate.
  - destruct H2 as [|b2 bs2 Hb2 H2].
    + cbn [map] in Heq. rewrite concat_cons_hex in Heq.
      destruct (hex_byte_spec b Hb) as (hi & lo & E & _). rewrite E in Heq.
      discriminate.
    + cbn [map] in Heq. rewrite !concat_cons_hex in Heq.
      destruct (hex_byte_spec b Hb) as (hi & lo & E & _ & _ & Hu).
      destruct (hex_byte_spec b2 Hb2) as (hi2 & lo2 & E2 & _ & _ & Hu2).
      rewrite E in Heq, Hu. rewrite E2 in Heq, Hu2.
      change (String hi (String lo (String.concat EmptyString (map hex_byte bs)))
              = String hi2 (String lo2
                  (String.concat EmptyString (map hex_byte bs2)))) in Heq.
      injection Heq as -> -> Heq.
      f_equal; [congruence | by apply IH].
Qed.

Lemma drawn_bytes n t : Forall (λ b, (b < 256)%N) (getRandomValues n t).1.
Proof.
  unfold getRandomValues. simpl. apply Forall_forall.
  intros b (i & -> & _)%list_elem_of_fmap. by apply N.mod_lt.
Qed.

(** X1. [generateId(length)] yields [2 * floor(length / 2)] characters,
    all of them lowercase hexadecimal digits, and consumes
    [floor(length / 2)] random bytes; trace ids have 32 characters and
    span ids 16. *)
Theorem generateId_is_lowercase_hex n t :
  String.length (generateId n t).1 = (2 * (n / 2))%nat
  ∧ Forall (λ c, is_hex c = true)
      (String.list_ascii_of_string (generateId n t).1)
  ∧ String.length (generateTraceId t).1 = 32%nat
  ∧ String.length (generateSpanId t).1 = 16%nat
  ∧ rng_pos (generateId n t).2 = (rng_pos t + n / 2)%nat.
Proof.
  assert (∀ m, String.length (generateId m t).1 = (2 * (m / 2))%nat
               ∧ Forall (λ c, is_hex c = true)
                   (String.list_ascii_of_string (generateId m t).1)) as H.
  { intros m. unfold generateId.
    pose proof (drawn_bytes (m / 2) t) as Hb.
    destruct (getRandomValues (m / 2) t) as [bytes t1] eqn:E. simpl in *.
    destruct (hex_string_spec bytes Hb) as [-> Hc]. split; [|done].
    apply (f_equal fst) in E. unfold getRandomValues in E. simpl in E.
    subst bytes. by rewrite length_map, length_seq. }
  split; [apply H|]. split; [apply H|].
  split; [apply (H 32%nat)|]. split; [apply (H 16%nat)|]. done.
Qed.

(** X2. Two generated ids of the same length are equal only if the
    random bytes they were built from are equal. *)
Theorem generateId_injective n t1 t2 :
  (generateId n t1).1 = (generateId n t2).1 →
  (getRandomValues (n / 2) t1).1 = (getRandomValues (n / 2) t2).1.
Proof.
  unfold generateId.
  pose proof (drawn_bytes (n / 2) t1) as H1.
  pose proof (drawn_bytes (n / 2) t2) as H2.
  destruct (getRandomValues (n / 2) t1) as [b1 u1].
  destruct (getRandomValues (n / 2) t2) as [b2 u2]. simpl in *.
  by apply hex_string_inj.
Qed.

(** ** Active span ids *)

(** C8 as stated fails: when the random source repeats itself, two spans
    opened one after the other and not ended get the same span id; the
    registry then holds the later one only. *)
Lemma inflight_spans_share_id :
  let first := startSpan "a" None (new_Tracer demo_config 0 stuck_tape) in
  let second := startSpan "b" None first.2 in
  tc_spanId first.1 = tc_spanId second.1
  ∧ name <$> activeSpans second.2 !! tc_spanId first.1 = Some "b".
Proof. vm_compute. split; reflexivity. Qed.

(** C8, amended. In every state the tracer can reach, whatever the
    random tape yields, two different spans filed in the registry of
    active spans have different span ids; every span [startSpan] opens
    is filed under the id it returns, in place of any span filed under
    that id before; and two generated span ids differ whenever the
    random source yields different bytes for them. *)
Theorem active_spanIds_distinct cfg clock tape ops :
  let t := run ops (new_Tracer cfg clock tape) in
  (∀ k1 k2 s1 s2,
     activeSpans t !! k1 = Some s1 →
     activeSpans t !! k2 = Some s2 →
     k1 ≠ k2 →
     spanId s1 ≠ spanId s2)
  ∧ (∀ name_ traceContext,
       let opened := startSpan name_ traceContext t in
       ∃ s, activeSpans opened.2 = <[tc_spanId opened.1 := s]> (activeSpans t)
            ∧ spanId s = tc_spanId opened.1 ∧ name s = name_)
  ∧ (∀ u1 u2,
       (getRandomValues 8 u1).1 ≠ (getRandomValues 8 u2).1 →
       (generateSpanId u1).1 ≠ (generateSpanId u2).1).
Proof.
  intros t. split; [|split].
  - intros k1 k2 s1 s2 H1 H2 Hne.
    destruct (reachable_inv t) as (Hk & _); [by exists cfg, clock, tape, ops|].
    by rewrite (Hk _ _ H1), (Hk _ _ H2).
  - intros name_ traceContext opened. unfold opened.
    destruct (startSpan_fields name_ traceContext t)
      as ((s & Ha & Hid & Hn & _) & _).
    by exists s.
  - intros u1 u2 Hne Heq. apply Hne. revert Heq.
    unfold generateSpanId, generateId.
    pose proof (drawn_bytes 8 u1) as H1.
    pose proof (drawn_bytes 8 u2) as H2.
    change (16 / 2)%nat with 8%nat.
    destruct (getRandomValues 8 u1) as [b1 v1].
    destruct (getRandomValues 8 u2) as [b2 v2]. simpl in *.
    by apply hex_string_inj.
Qed.

(** A worked instance: the two spans a fresh tracer opens on the counting
    tape. *)
Lemma active_spanIds_distinct_witness :
  spanId {| traceId := "000102030405060708090a0b0c0d0e0f";
            spanId := "1011121314151617"; parentSpanId := None;
            name := "a"; kind := client;
            startTimeUnixNano := 1700000000000000000;
            endTimeUnixNano := None; attributes := []; status := None;
            events := [] |}
  ≠ spanId {| traceId := "18191a1b1c1d1e1f2021222324252627";
              spanId := "28292a2b2c2d2e2f"; parentSpanId := None;
              name := "b"; kind := client;
              startTimeUnixNano := 1700000000000000000;
              endTimeUnixNano := None; attributes := []; status := None;
              events := [] |}
  ∧ (generateSpanId demo_tracer).1 ≠ (generateSpanId two_open).1.
Proof.
  destruct (active_spanIds_distinct demo_config 1700000000000 counting_tape
              [op_startSpan "a" None; op_startSpan "b" None])
    as (Hkeys & _ & Hids).
  split.
  - apply (Hkeys "1011121314151617" "28292a2b2c2d2e2f").
    + vm_compute. reflexivity.
    + vm_compute. reflexivity.
    + discriminate.
  - apply Hids. vm_compute. discriminate.
Defined.

(** ** Further properties of the instrumented calls *)

Lemma attributes_push_all l s : attributes (push_all l s) = attributes s ++ encoded l.
Proof. by destruct (push_all_fields l s) as (-> & _). Qed.

Lemma status_push_all l s : status (push_all l s) = status s.
Proof. by destruct (push_all_fields l s) as (_ & _ & -> & _). Qed.

(** The span a resolved call closes, when the usage extraction does not
    throw. *)
Lemma resolved_call_span h fn p r t :
  settled (fn (Some p)) = resolves r →
  usage_failure h r = None →
  let res := instrument h fn (Some p) t in
  res.1 = Returned r
  ∧ activeSpans res.2 !! tc_spanId (startSpan (spanName h) None t).1 = None
  ∧ ∃ s, closedSpans res.2 = closedSpans t ++ [s]
      ∧ name s = spanName h
      ∧ status s = Some (0, None)
      ∧ attributes s
        = encoded (request_attributes h p)
          ++ [("gen_ai.response.latency_ms",
               intValue (Z.max 0 (elapsed (fn (Some p)))))]
          ++ encoded (usage_attributes h r)
      ∧ endTimeUnixNano s
        = Some ((now t + Z.max 0 (elapsed (fn (Some p)))) * 1000000).
Proof.
  intros Hs Hu res. unfold res.
  rewrite (instrument_resolves h fn p r t Hs Hu). cbn [fst snd].
  split; [done|].
  destruct (at_start (spanName h) t) as (s0 & Hat & Hname & Hattr & _).
  edestruct at_end as (Hc & Hgone);
    [apply at_status, at_attrs, at_attr, at_advance, at_attrs, Hat|].
  split; [exact Hgone|]. eexists. split; [exact Hc|].
  split; [span_name|].
  cbn [attributes status endTimeUnixNano with_endTime with_status].
  split; [done|]. split; [|done].
  rewrite attributes_push_all. cbn [attributes push_attribute].
  rewrite attributes_push_all, Hattr, <- app_assoc. done.
Qed.

(** X12. When the provider call of any instrumented method resolves and
    the usage extraction does not throw, the call returns that very
    response and closes exactly one span: named by the method, status 0
    (OK) without message, carrying the request attributes, the latency
    and the usage attributes, stamped with its end time; its id is no
    longer active. *)
Theorem success_is_recorded_and_returned h fn p r t :
  settled (fn (Some p)) = resolves r →
  usage_failure h r = None →
  let res := instrument h fn (Some p) t in
  res.1 = Returned r
  ∧ activeSpans res.2 !! tc_spanId (startSpan (spanName h) None t).1 = None
  ∧ ∃ s, closedSpans res.2 = closedSpans t ++ [s]
      ∧ name s = spanName h
      ∧ status s = Some (0, None)
      ∧ attributes s
        = encoded (request_attributes h p)
          ++ [("gen_ai.response.latency_ms",
               intValue (Z.max 0 (elapsed (fn (Some p)))))]
          ++ encoded (usage_attributes h r)
      ∧ endTimeUnixNano s
        = Some ((now t + Z.max 0 (elapsed (fn (Some p)))) * 1000000).
Proof. apply resolved_call_span. Qed.

(** A worked instance: a resolved image generation call. *)
Lemma success_is_recorded_and_returned_witness :
  let res := instrument OpenAIImages
               (always 120 (resolves messages_response))
               (Some demo_params) demo_tracer in
  res.1 = Returned messages_response
  ∧ ∃ s, closedSpans res.2 = closedSpans demo_tracer ++ [s]
      ∧ status s = Some (0, None).
Proof.
  intros res.
  destruct (success_is_recorded_and_returned OpenAIImages
              (always 120 (resolves messages_response))
              demo_params messages_response demo_tracer eq_refl eq_refl)
    as (Hres & _ & s & Hc & _ & Hst & _).
  split; [exact Hres|]. exists s. split; [exact Hc | exact Hst].
Defined.

(** X13. For the OpenAI, Azure OpenAI and Mistral chat methods, a usage
    object makes the span carry six usage attributes read from
    [prompt_tokens], [completion_tokens] and [total_tokens], each 0 when
    absent; the total is the provider's field, not a sum.  Without a
    usage object there is no usage attribute. *)
Theorem openai_style_usage_taken_as_is h fn p r t :
  h ∈ [OpenAICall; AzureOpenAICall; MistralCall] →
  settled (fn (Some p)) = resolves r →
  ∃ s, closedSpans (instrument h fn (Some p) t).2 = closedSpans t ++ [s]
     ∧ attributes s
       = encoded (request_attributes h p)
         ++ [("gen_ai.response.latency_ms",
              intValue (Z.max 0 (elapsed (fn (Some p)))))]
         ++ match response_usage r with
            | Some u =>
                let prompt := default 0 (prompt_tokens u) in
                let completion := default 0 (completion_tokens u) in
                let total := default 0 (total_tokens u) in
                [("gen_ai.usage.prompt_tokens", intValue prompt);
                 ("gen_ai.usage.completion_tokens", intValue completion);
                 ("gen_ai.usage.total_tokens", intValue total);
                 ("ai.prompt_tokens", intValue prompt);
                 ("ai.completion_tokens", intValue completion);
                 ("ai.total_tokens", intValue total)]
            | None => []
            end.
Proof.
  intros Hh Hs.
  assert (usage_failure h r = None) as Hu.
  { repeat (apply elem_of_cons in Hh as [->|Hh]; [done|]). by apply elem_of_nil in Hh. }
  destruct (resolved_call_span h fn p r t Hs Hu) as (_ & _ & s & Hc & _ & _ & Ha & _).
  exists s. split; [exact Hc|]. rewrite Ha. do 2 f_equal.
  repeat (apply elem_of_cons in Hh as [->|Hh];
          [unfold usage_attributes; destruct (response_usage r) as [u|]; [|done];
           cbn; by rewrite !or0_default|]).
  by apply elem_of_nil in Hh.
Qed.

(** A worked instance: prompt 10, completion 5 and no total give
    [ai.total_tokens = 0]. *)
Lemma openai_style_usage_taken_as_is_witness :
  ∃ s, closedSpans (instrument OpenAICall (always 120 (resolves chat_response))
                      (Some demo_params) demo_tracer).2
       = closedSpans demo_tracer ++ [s]
     ∧ last (attributes s) = Some ("ai.total_tokens", intValue 0).
Proof.
  destruct (openai_style_usage_taken_as_is OpenAICall
              (always 120 (resolves chat_response)) demo_params chat_response
              demo_tracer) as (s & Hc & Ha).
  - apply list_elem_of_here.
  - reflexivity.
  - exists s. split; [exact Hc|]. rewrite Ha. vm_compute. reflexivity.
Defined.

(** X14. The span of a resolved embeddings call carries the four common
    request attributes (model [unknown] when none is given), the
    latency and, when the response has a usage object, four usage
    attributes read from [prompt_tokens] and [total_tokens]. *)
Theorem embeddings_usage_extraction fn p r t :
  settled (fn (Some p)) = resolves r →
  ∃ s, closedSpans (instrumentOpenAIEmbeddings fn (Some p) t).2
       = closedSpans t ++ [s]
     ∧ attributes s
       = [("gen_ai.system", stringValue "openai");
          ("gen_ai.request.model",
           encodeValue (js_or (model p) (JString "unknown")));
          ("ai.provider", stringValue "openai");
          ("ai.model", encodeValue (js_or (model p) (JString "unknown")));
          ("gen_ai.response.latency_ms",
           intValue (Z.max 0 (elapsed (fn (Some p)))))]
         ++ match response_usage r with
            | Some u =>
                [("gen_ai.usage.prompt_tokens",
                  intValue (default 0 (prompt_tokens u)));
                 ("gen_ai.usage.total_tokens",
                  intValue (default 0 (total_tokens u)));
                 ("ai.prompt_tokens", intValue (default 0 (prompt_tokens u)));
                 ("ai.total_tokens", intValue (default 0 (total_tokens u)))]
            | None => []
            end.
Proof.
  intros Hs. unfold instrumentOpenAIEmbeddings.
  destruct (resolved_call_span OpenAIEmbeddings fn p r t Hs eq_refl)
    as (_ & _ & s & Hc & _ & _ & Ha & _).
  exists s. split; [exact Hc|]. rewrite Ha. cbn -[Z.max]. do 5 f_equal.
  destruct (response_usage r) as [u|]; [|done]. cbn. by rewrite !or0_default.
Qed.

(** A worked instance: five attributes and four usage attributes. *)
Lemma embeddings_usage_extraction_witness :
  ∃ s, closedSpans (instrumentOpenAIEmbeddings
                      (always 120 (resolves chat_response))
                      (Some demo_params) demo_tracer).2
       = closedSpans demo_tracer ++ [s]
     ∧ length (attributes s) = 9%nat.
Proof.
  destruct (embeddings_usage_extraction (always 120 (resolves chat_response))
              demo_params chat_response demo_tracer eq_refl) as (s & Hc & Ha).
  exists s. split; [exact Hc|]. by rewrite Ha.
Defined.

(** X15. A resolved Bedrock call whose response has no body, or a body
    that parses to an object whose [usage] member is absent or holds
    number counters that are, with their sum, safe integers, returns the
    response with status OK; the usage attributes come from the [usage]
    member of the parsed body ([input_tokens], [output_tokens], their
    sum) and are absent when the body or that member is. *)
Theorem bedrock_usage_from_body fn p r t :
  settled (fn (Some p)) = resolves r →
  (response_body r = None ∨ ∃ u, response_body r = Some (body_json u)) →
  (∀ u, response_body r = Some (body_json (Some u)) → safe_usage u = true) →
  (instrumentBedrockCall fn (Some p) t).1 = Returned r
  ∧ ∃ s, closedSpans (instrumentBedrockCall fn (Some p) t).2
         = closedSpans t ++ [s]
       ∧ status s = Some (0, None)
       ∧ attributes s
         = encoded (request_attributes BedrockCall p)
           ++ [("gen_ai.response.latency_ms",
                intValue (Z.max 0 (elapsed (fn (Some p)))))]
           ++ match response_body r with
              | Some (body_json (Some u)) =>
                  let prompt := default 0 (input_tokens u) in
                  let completion := default 0 (output_tokens u) in
                  [("gen_ai.usage.prompt_tokens", intValue prompt);
                   ("gen_ai.usage.completion_tokens", intValue completion);
                   ("gen_ai.usage.total_tokens", intValue (prompt + completion));
                   ("ai.prompt_tokens", intValue prompt);
                   ("ai.completion_tokens", intValue completion);
                   ("ai.total_tokens", intValue (prompt + completion))]
              | _ => []
              end.
Proof.
  intros Hs Hbody Hsafe. unfold instrumentBedrockCall.
  assert (usage_failure BedrockCall r = None) as Hu.
  { unfold usage_failure. by destruct Hbody as [->|[u ->]]. }
  destruct (resolved_call_span BedrockCall fn p r t Hs Hu)
    as (Hres & _ & s & Hc & _ & Hst & Ha & _).
  split; [exact Hres|]. exists s. split; [exact Hc|]. split; [exact Hst|].
  rewrite Ha. do 2 f_equal. unfold usage_attributes.
  destruct Hbody as [Hb|[[u|] Hb]]; rewrite Hb in *; try done.
  specialize (Hsafe u eq_refl). unfold safe_usage in Hsafe.
  apply andb_prop in Hsafe as [_ Hsum].
  cbn. rewrite !or0_default. by rewrite js_add_exact.
Qed.

(** A worked instance: a body that is JSON with a usage member. *)
Lemma bedrock_usage_from_body_witness :
  (instrumentBedrockCall (always 120 (resolves invoke_response))
     (Some demo_command) demo_tracer).1 = Returned invoke_response.
Proof.
  refine (proj1 (bedrock_usage_from_body (always 120 (resolves invoke_response))
                   demo_command invoke_response demo_tracer eq_refl _ _)).
  - right. by eexists.
  - intros u [= <-]. reflexivity.
Defined.

(** X16. Called without parameters, an instrumented method rejects with
    a [TypeError] (whose message is the engine's) whatever the provider
    function would have done, and closes one span with status ERROR
    that carries only [gen_ai.system] (not even that for Bedrock) and
    the two error attributes, the message of the [TypeError] being the
    status message and the [error.message] attribute. *)
Theorem call_without_params_never_reaches_provider h fn fn' t :
  instrument h fn None t = instrument h fn' None t
  ∧ ∃ message,
      (instrument h fn None t).1 = Threw (ThrownError "TypeError" message)
      ∧ ∃ s, closedSpans (instrument h fn None t).2 = closedSpans t ++ [s]
           ∧ name s = spanName h
           ∧ status s = Some (2, Some message)
           ∧ attributes s
             = match h with
               | BedrockCall => []
               | _ => [("gen_ai.system", stringValue (system h))]
               end
               ++ [("error", boolValue true);
                   ("error.message", stringValue message)]
           ∧ endTimeUnixNano s = Some (now t * 1000000).
Proof.
  rewrite !instrument_nullish_params. cbn [fst snd].
  split; [done|]. eexists. split; [done|].
  destruct (at_start (spanName h) t) as (s0 & Hat & Hname & Hattr & _).
  edestruct (at_caught (tc_spanId (startSpan (spanName h) None t).1))
    with (error := ThrownError "TypeError" "Cannot read properties of undefined")
    as (_ & s' & Hc & Hn & Hst & Ha & He);
    [apply at_attrs, Hat | by eexists |].
  exists s'. split; [exact Hc|]. split; [rewrite Hn; span_name|].
  split; [exact Hst|]. split; [|exact He].
  rewrite Ha, attributes_push_all, Hattr. by destruct h.
Qed.

(** X23. When the provider call fails with a value that is not an
    [Error] and that [String] cannot convert, the [catch] block itself
    throws: the call rejects with a [TypeError] in place of the failure,
    no span is closed, and the span of the call stays filed under its
    id, marked with status ERROR and [error = true], without an end
    time. *)
Theorem unconvertible_failure_leaves_span_open h fn p t :
  settled (fn (Some p)) = rejects (ThrownValue None) →
  let res := instrument h fn (Some p) t in
  (∃ message, res.1 = Threw (ThrownError "TypeError" message))
  ∧ closedSpans res.2 = closedSpans t
  ∧ ∃ s, activeSpans res.2 !! tc_spanId (startSpan (spanName h) None t).1
         = Some s
       ∧ name s = spanName h
       ∧ status s = Some (2, Some "Unknown error")
       ∧ attributes s
         = encoded (request_attributes h p) ++ [("error", boolValue true)]
       ∧ endTimeUnixNano s = None.
Proof.
  intros Hs res. unfold res.
  rewrite (instrument_rejects h fn p _ t Hs). cbn [fst snd].
  split; [by eexists|].
  destruct (at_start (spanName h) t) as (s0 & Hat & Hname & Hattr & _ & Hend).
  edestruct (at_caught_stuck (tc_spanId (startSpan (spanName h) None t).1))
    with (error := ThrownValue None) as (Ha & Hc & _);
    [apply at_advance, at_attrs, Hat | done |].
  split; [exact Hc|]. eexists. split; [exact Ha|].
  cbn [name status attributes endTimeUnixNano push_attribute with_status].
  destruct (push_all_fields (request_attributes h p) s0)
    as (-> & -> & _ & _ & ->).
  by rewrite Hattr.
Qed.

(** A worked instance: an OpenAI call rejected with such a value. *)
Lemma unconvertible_failure_leaves_span_open_witness :
  closedSpans (instrument OpenAICall (always 35 (rejects (ThrownValue None)))
                 (Some demo_params) demo_tracer).2
  = closedSpans demo_tracer.
Proof.
  apply (unconvertible_failure_leaves_span_open OpenAICall
           (always 35 (rejects (ThrownValue None))) demo_params demo_tracer
           eq_refl).
Defined.




(** ** Further properties of the proxies *)

Lemma get_Forwarded_object target k :
  is_object target = true →
  get (Forwarded target) (PStr k) = Forwarded (read target (PStr k)).
Proof. by destruct target. Qed.

Lemma get_path_cons value k path :
  get_path value (k :: path) = get_path (get value (PStr k)) path.
Proof. done. Qed.

Lemma primitive_leads_nowhere v path parent :
  get_path (Forwarded (CPrim v)) path = Forwarded parent →
  is_object parent = false.
Proof.
  revert v. induction path as [|k path IH]; intros v; [by intros [= <-]|].
  rewrite get_path_cons.
  destruct v; cbn [get]; rewrite ?get_path_TypeError; try done; apply IH.
Qed.

Lemma forwarded_below trap target path v :
  is_object target = true →
  get_path (Proxied trap target) path = Forwarded v →
  get_path (Forwarded target) path = Forwarded v
  ∨ ∃ pre suf h, path = pre ++ suf ∧ suf ≠ [] ∧ route trap pre = Some h.
Proof.
  revert trap target. induction path as [|k path IH]; intros trap target Hobj;
    [done|].
  rewrite !get_path_cons, get_Forwarded_object by done. cbn [get].
  rewrite trap_get_edge.
  destruct (edge trap k) as [[below|h]|] eqn:Ek.
  - unfold new_Proxy. destruct (is_object (read target (PStr k))) eqn:Eo;
      [|by rewrite get_path_TypeError].
    intros H. destruct (IH below _ Eo H) as [Hplain|(pre & suf & h & -> & Hs & Hr)];
      [by left|].
    right. exists (k :: pre), suf, h. split; [done|]. split; [done|].
    cbn [route]. by rewrite Ek.
  - destruct path as [|k' path]; [done|]. intros _.
    right. exists [k], (k' :: path), h. split; [done|]. split; [done|].
    cbn [route]. by rewrite Ek.
  - by left.
Qed.

(** X18. Whenever reading a path on a wrapped client yields a plain
    value, it is the value the same path yields on the client itself,
    unless the path runs through an intercepted method. *)
Theorem forwarded_value_is_original p client_ path v :
  get_path (wrap p client_) path = Forwarded v →
  get_path (Forwarded client_) path = Forwarded v
  ∨ ∃ pre suf h,
      path = pre ++ suf ∧ suf ≠ [] ∧ (p, pre, h) ∈ intercepted.
Proof.
  assert (wrap p client_ = new_Proxy client_ (client_trap p)) as -> by (by destruct p).
  unfold new_Proxy. destruct (is_object client_) eqn:Eo;
    [|by rewrite get_path_TypeError].
  intros H.
  destruct (forwarded_below _ _ _ _ Eo H) as [Hplain|(pre & suf & h & -> & Hs & Hr)];
    [by left|].
  right. exists pre, suf, h. split; [done|]. split; [done|].
  by apply route_intercepted.
Qed.

(** A worked instance: [chat.completions.list] next to the intercepted
    [chat.completions.create]. *)
Lemma forwarded_value_is_original_witness :
  get_path (Forwarded openai_client) ["chat"; "completions"; "list"]
  = Forwarded (CObj (Some 5%nat) []).
Proof.
  destruct (forwarded_value_is_original openai openai_client
              ["chat"; "completions"; "list"] (CObj (Some 5%nat) []) eq_refl)
    as [H|(pre & suf & h & Hp & Hs & Hin)]; [exact H|].
  reflexivity.
Defined.

Lemma instrumented_below trap target path h fn receiver :
  is_object target = true →
  get_path (Proxied trap target) path = Instrumented h fn receiver →
  ∃ pre k, path = pre ++ [k]
           ∧ get_path (Forwarded target) pre = Forwarded receiver
           ∧ is_object receiver = true
           ∧ fn = read receiver (PStr k).
Proof.
  revert trap target. induction path as [|k path IH]; intros trap target Hobj;
    [done|].
  rewrite get_path_cons. cbn [get]. rewrite trap_get_edge.
  destruct (edge trap k) as [[below|h']|] eqn:Ek.
  - unfold new_Proxy. destruct (is_object (read target (PStr k))) eqn:Eo;
      [|by rewrite get_path_TypeError].
    intros H. destruct (IH below _ Eo H) as (pre & k' & -> & Hpre & Hr & Hfn).
    exists (k :: pre), k'. split; [done|].
    by rewrite get_path_cons, get_Forwarded_object.
  - destruct path as [|k' path].
    + intros [= -> <- <-]. by exists [], k.
    + rewrite get_path_cons. cbn [get]. intros H.
      by apply get_path_Forwarded in H.
  - intros H. by apply get_path_Forwarded in H.
Qed.

(** X19. An instrumented function is only ever found at an intercepted
    path, and it wraps the member the client itself has at that path,
    bound to the object that holds it. *)
Theorem instrumented_method_is_the_original p client_ path h fn receiver :
  get_path (wrap p client_) path = Instrumented h fn receiver →
  (p, path, h) ∈ intercepted
  ∧ ∃ pre k, path = pre ++ [k]
             ∧ get_path (Forwarded client_) pre = Forwarded receiver
             ∧ fn = read receiver (PStr k).
Proof.
  intros H. split; [by eapply wrap_path|].
  assert (wrap p client_ = new_Proxy client_ (client_trap p)) as Hw by (by destruct p).
  rewrite Hw in H. unfold new_Proxy in H. destruct (is_object client_) eqn:Eo;
    [|by rewrite get_path_TypeError in H].
  destruct (instrumented_below _ _ _ _ _ _ Eo H) as (pre & k & -> & Hpre & _ & Hfn).
  by exists pre, k.
Qed.

(** A worked instance: [chat.completions.create] of an OpenAI client. *)
Lemma instrumented_method_is_the_original_witness :
  (openai, ["chat"; "completions"; "create"], OpenAICall) ∈ intercepted.
Proof.
  refine (proj1 (instrumented_method_is_the_original openai openai_client
                   ["chat"; "completions"; "create"] OpenAICall
                   (CObj (Some 4%nat) [])
                   (CObj None [(PStr "create", CObj (Some 4%nat) []);
                               (PStr "list", CObj (Some 5%nat) [])]) eq_refl)).
Defined.

Lemma route_reaches trap target pre k h parent :
  route trap (pre ++ [k]) = Some h →
  is_object target = true →
  get_path (Forwarded target) pre = Forwarded parent →
  is_object parent = true →
  get_path (Proxied trap target) (pre ++ [k])
  = Instrumented h (read parent (PStr k)) parent.
Proof.
  revert trap target. induction pre as [|k0 pre IH]; intros trap target Hr Hobj Hp Hparent.
  - cbn [app route] in Hr. injection Hp as <-.
    cbn [app]. rewrite get_path_cons. cbn [get get_path foldl].
    rewrite trap_get_edge. by destruct (edge trap k) as [[below|h']|]; simplify_eq.
  - cbn [app route] in Hr. rewrite get_path_cons, get_Forwarded_object in Hp by done.
    change ((k0 :: pre) ++ [k]) with (k0 :: (pre ++ [k])).
    rewrite get_path_cons. cbn [get]. rewrite trap_get_edge.
    destruct (edge trap k0) as [[below|h']|]; [| by destruct pre | done].
    destruct (read target (PStr k0)) as [v|callable props] eqn:Er.
    + apply primitive_leads_nowhere in Hp. congruence.
    + unfold new_Proxy. cbn [is_object]. by apply IH.
Qed.

Lemma intercepted_route p path h :
  (p, path, h) ∈ intercepted → route (client_trap p) path = Some h.
Proof.
  unfold intercepted. intros Hin.
  repeat (apply elem_of_cons in Hin as [[= -> -> ->]|Hin]; [reflexivity|]).
  by apply elem_of_nil in Hin.
Qed.

(** ** The facade *)

(** X21. [trackSignal] and the settling of its [fetch] change nothing of
    the tracer but the console.  A call issues at most one request,
    authorized by the configured API key and carrying the configured
    customer id and the source [sdk]; a nullish argument issues none;
    settling never issues another. *)
Theorem trackSignal_is_fire_and_forget params p o a :
  same_but_console (wrapper a) (wrapper (trackSignal params a))
  ∧ same_but_console (wrapper a) (wrapper (trackSignal_resume p o a))
  ∧ (signals (trackSignal params a) = signals a
     ∨ ∃ r, signals (trackSignal params a) = signals a ++ [r]
            ∧ authorization r = "Bearer " +:+ apiKey (config (wrapper a))
            ∧ customer_id r = customerId (config (wrapper a))
            ∧ data_source r = "sdk")
  ∧ signals (trackSignal_resume p o a) = signals a
  ∧ (params = None → signals (trackSignal params a) = signals a).
Proof.
  split; [|split; [|split; [|split]]].
  - unfold trackSignal. destruct params as [q|]; [destruct (data q)|]; done.
  - unfold trackSignal_resume. destruct (signals_inflight a); [done|].
    by destruct o.
  - unfold trackSignal. destruct params as [q|]; [|by left].
    destruct (data q); [right|right|by left]; eexists;
      (split; [reflexivity|]); done.
  - unfold trackSignal_resume. destruct (signals_inflight a); [done|].
    by destruct o.
  - by intros ->.
Qed.

(** X22. With [debug] off [trackSignal] leaves the tracer, console
    included, untouched, and a rejected send ends in the same state as a
    successful one.  With [debug] on, a response of any status logs the
    signal as tracked and a rejection logs the failure. *)
Theorem trackSignal_failure_is_silent p o a :
  (debug (config (wrapper a)) = false →
     (∀ params, wrapper (trackSignal params a) = wrapper a)
     ∧ trackSignal_resume p o (trackSignal (Some p) a)
       = trackSignal_resume p (signal_resolves true) (trackSignal (Some p) a))
  ∧ (debug (config (wrapper a)) = true → (0 < signals_inflight a)%nat →
     (∀ ok, console (wrapper (trackSignal_resume p (signal_resolves ok) a))
            = console (wrapper a) ++ [signal_tracked p])
     ∧ (∀ error,
          console (wrapper (trackSignal_resume p (signal_rejects error) a))
          = console (wrapper a) ++ [signal_failed error])).
Proof.
  split.
  - intros Hd. split.
    + intros params. unfold trackSignal, debug_line.
      destruct params as [q|]; [destruct (data q)|]; simpl; rewrite ?Hd;
        try done; by destruct (wrapper a).
    + unfold trackSignal, trackSignal_resume, debug_line.
      destruct (data p); destruct o; simpl; rewrite ?Hd; try done;
        destruct (signals_inflight a); simpl; rewrite ?Hd; done.
  - intros Hd Hin. unfold trackSignal_resume, debug_line.
    destruct (signals_inflight a); [lia|]. simpl. by rewrite Hd.
Qed.

(** A worked instance: a rejected send on the test configuration. *)
Lemma trackSignal_failure_is_silent_witness :
  trackSignal_resume demo_signal
    (signal_rejects (ThrownError "TypeError" "fetch failed"))
    (trackSignal (Some demo_signal) (init demo_config 1700000000000 counting_tape))
  = trackSignal_resume demo_signal (signal_resolves true)
      (trackSignal (Some demo_signal)
         (init demo_config 1700000000000 counting_tape)).
Proof.
  apply (trackSignal_failure_is_silent demo_signal
           (signal_rejects (ThrownError "TypeError" "fetch failed"))
           (init demo_config 1700000000000 counting_tape)).
  reflexivity.
Defined.

(** Worked instances: a signal that is sent, and a call without
    argument. *)
Lemma trackSignal_is_fire_and_forget_witness :
  (∃ r, signals (trackSignal (Some demo_signal)
                   (init demo_config 1700000000000 counting_tape)) = [r]
        ∧ authorization r = "Bearer " +:+ apiKey demo_config
        ∧ data_source r = "sdk")
  ∧ signals (trackSignal None (init demo_config 1700000000000 counting_tape))
    = signals (init demo_config 1700000000000 counting_tape).
Proof.
  split.
  - destruct (trackSignal_is_fire_and_forget (Some demo_signal) demo_signal
                (signal_resolves true)
                (init demo_config 1700000000000 counting_tape))
      as (_ & _ & [H|(r & H & Hk & _ & Hd)] & _).
    + exfalso. revert H. vm_compute. discriminate.
    + exists r. split; [exact H|]. split; [exact Hk | exact Hd].
  - apply (trackSignal_is_fire_and_forget None demo_signal (signal_resolves true)
             (init demo_config 1700000000000 counting_tape)).
    reflexivity.
Defined.

(** ** Child spans *)

(** X3. [startSpan] with a parent context files a span under the new
    span id with the parent's span id as [parentSpanId], no attributes,
    no status and no end time.  It keeps the parent's trace id unless
    that is empty, in which case a fresh one is generated; the returned
    customer id is the parent's unless absent or empty, in which case it
    is the configured one. *)
Theorem startSpan_links_child_to_parent name_ parent t :
  let c := (startSpan name_ (Some parent) t).1 in
  let t' := (startSpan name_ (Some parent) t).2 in
  (∃ s, activeSpans t' !! tc_spanId c = Some s
        ∧ spanId s = tc_spanId c
        ∧ traceId s = tc_traceId c
        ∧ parentSpanId s = Some (tc_spanId parent)
        ∧ attributes s = [] ∧ status s = None ∧ endTimeUnixNano s = None
        ∧ startTimeUnixNano s = now t * 1000000)
  ∧ (tc_traceId parent ≠ EmptyString →
     tc_traceId c = tc_traceId parent
     ∧ tc_spanId c = (generateSpanId t).1)
  ∧ (tc_traceId parent = EmptyString →
     tc_traceId c = (generateTraceId t).1
     ∧ tc_spanId c = (generateSpanId (generateTraceId t).2).1)
  ∧ tc_customerId c
    = match tc_customerId parent with
      | Some customer =>
          if String.eqb customer EmptyString then customerId (config t)
          else Some customer
      | None => customerId (config t)
      end.
Proof.
  unfold startSpan, generateTraceId, generateSpanId, generateId, getRandomValues.
  cbn [fmap option_fmap option_map mbind option_bind truthy_str].
  destruct (String.eqb_spec (tc_traceId parent) EmptyString) as [->|Hne];
    cbn [fst snd tc_spanId tc_traceId tc_customerId activeSpans set_activeSpans log
         set_console set_rng_pos now config];
    (split; [eexists; split; [apply lookup_insert_eq | done]|]);
    (split; [done|]); (split; [done|]);
    destruct (tc_customerId parent) as [cu|]; try done; cbn;
      by destruct (String.eqb cu EmptyString).
Qed.

(** A worked instance: a child of a parent with a trace id. *)
Lemma startSpan_links_child_to_parent_witness :
  tc_traceId (startSpan "child" (Some demo_parent) demo_tracer).1
  = tc_traceId demo_parent
  ∧ tc_spanId (startSpan "child" (Some demo_parent) demo_tracer).1
    = (generateSpanId demo_tracer).1.
Proof.
  apply (startSpan_links_child_to_parent "child" demo_parent demo_tracer).
  discriminate.
Defined.

(** A worked instance: two fresh tracers on the same tape. *)
Lemma generateId_injective_witness :
  (getRandomValues (16 / 2) demo_tracer).1
  = (getRandomValues (16 / 2) later_tracer).1.
Proof.
  apply (generateId_injective 16 demo_tracer later_tracer).
  vm_compute. reflexivity.
Defined.
